(** * mysqldump_to_csv: a shallow embedding and its properties

    The development follows [mysqldump_to_csv.py].  Python strings are lists
    of characters; the embedding covers 7-bit ASCII text (for code points
    above 127 Python's [str.upper] and [str.isspace] consult the Unicode
    tables, which are not modelled).  Exceptions are values of [exn]; a
    computation that may raise returns a [result].  The table registry is a
    finite map, and every file opened for a table is a handle into a store
    of sinks, each holding the records handed to its [csv.writer]. *)

From Stdlib Require Import Ascii String List Bool ZArith Lia.
From stdpp Require Import base option list gmap strings.

Local Open Scope nat_scope.

(** ** Python values and exceptions *)

Abbreviation str := (list ascii) (only parsing).

(** A string literal of the source. *)
Definition lit (s : string) : str := list_ascii_of_string s.

Inductive exn := IndexError | CsvError.

Inductive result (A : Type) :=
| Ok (a : A)
| Raise (e : exn).
Arguments Ok {A} a.
Arguments Raise {A} e.

Definition rbind {A B} (r : result A) (k : A -> result B) : result B :=
  match r with
  | Ok a => k a
  | Raise e => Raise e
  end.

(** ** The [str] methods the program uses *)

Module PyStr.

(** [c.isspace()] on ASCII: TAB, LF, VT, FF, CR, FS, GS, RS, US, SPACE. *)
Definition isspace (c : ascii) : bool :=
  let n := nat_of_ascii c in
  ((9 <=? n) && (n <=? 13)) || ((28 <=? n) && (n <=? 32)).

Definition upper_char (c : ascii) : ascii :=
  let n := nat_of_ascii c in
  if (97 <=? n) && (n <=? 122) then ascii_of_nat (n - 32) else c.

(** [s.upper()] *)
Definition upper (s : str) : str := map upper_char s.

(** [s.startswith(p)] *)
Fixpoint startswith (s p : str) {struct p} : bool :=
  match p, s with
  | [], _ => true
  | _ :: _, [] => false
  | a :: p', c :: s' => Ascii.eqb c a && startswith s' p'
  end.

(** [s.endswith(p)] *)
Definition endswith (s p : str) : bool := startswith (rev s) (rev p).

(** [p in s] *)
Fixpoint contains (s p : str) : bool :=
  startswith s p ||
  match s with
  | [] => false
  | _ :: s' => contains s' p
  end.

(** [c in s] for a single character *)
Definition mem (c : ascii) (cs : str) : bool := existsb (Ascii.eqb c) cs.

Fixpoint drop_while (p : ascii -> bool) (s : str) : str :=
  match s with
  | [] => []
  | c :: s' => if p c then drop_while p s' else s
  end.

Fixpoint take_while (p : ascii -> bool) (s : str) : str :=
  match s with
  | [] => []
  | c :: s' => if p c then c :: take_while p s' else []
  end.

Definition lstrip_by (p : ascii -> bool) (s : str) : str := drop_while p s.
Definition rstrip_by (p : ascii -> bool) (s : str) : str :=
  rev (drop_while p (rev s)).

(** [s.strip()] *)
Definition strip (s : str) : str := rstrip_by isspace (lstrip_by isspace s).

(** [s.strip(cs)] and [s.rstrip(cs)] *)
Definition strip_chars (s cs : str) : str :=
  rstrip_by (fun c => mem c cs) (lstrip_by (fun c => mem c cs) s).
Definition rstrip_chars (s cs : str) : str := rstrip_by (fun c => mem c cs) s.

(** [s.split()]: the maximal runs of non-whitespace characters; [cur] is
    the run being read. *)
Fixpoint split_from (s cur : str) : list str :=
  match s with
  | [] => match cur with [] => [] | _ => [cur] end
  | c :: s' =>
      if isspace c
      then match cur with
           | [] => split_from s' []
           | _ => cur :: split_from s' []
           end
      else split_from s' (cur ++ [c])
  end.
Definition split (s : str) : list str := split_from s [].

(** [s.partition(sep)] for a non-empty [sep]; [before] is the text already
    passed. *)
Fixpoint partition_from (s sep before : str) : str * str * str :=
  if startswith s sep
  then (before, sep, drop (length sep) s)
  else match s with
       | [] => (before, [], [])
       | c :: s' => partition_from s' sep (before ++ [c])
       end.
Definition partition (s sep : str) : str * str * str :=
  partition_from s sep [].

(** [s[-1]] *)
Definition last_char (s : str) : result ascii :=
  match rev s with
  | [] => Raise IndexError
  | c :: _ => Ok c
  end.

(** [s[:-1]] *)
Definition drop_last (s : str) : str := rev (tl (rev s)).

(** [s == t] *)
Fixpoint eqb (s t : str) : bool :=
  match s, t with
  | [], [] => true
  | c :: s', a :: t' => Ascii.eqb c a && eqb s' t'
  | _, _ => false
  end.

End PyStr.
Import PyStr.

(** ** The statement classifier *)

Definition is_backtick_or_dquote (c : ascii) : bool :=
  Ascii.eqb c "`"%char || Ascii.eqb c "034"%char.

(** The character class of the table-name pattern: anything but a
    backtick, a double quote (code 34), whitespace and an opening
    parenthesis. *)
Definition is_name_char (c : ascii) : bool :=
  negb (is_backtick_or_dquote c || isspace c || Ascii.eqb c "("%char).

(** The name group: the longest non-empty run of name characters. *)
Definition match_name (s : str) : option str :=
  match take_while is_name_char s with
  | [] => None
  | g => Some g
  end.

(** What follows the keywords in the pattern: a space, an optional
    backtick or double quote (tried first, given up if the name then fails
    to match), and the name group. *)
Definition match_after_keyword (r : str) : option str :=
  match r with
  | c :: r1 =>
      if Ascii.eqb c " "%char
      then match r1 with
           | q :: r2 =>
               if is_backtick_or_dquote q
               then match match_name r2 with
                    | Some g => Some g
                    | None => match_name r1
                    end
               else match_name r1
           | [] => match_name r1
           end
      else None
  | [] => None
  end.

(** The pattern anchored at the head of [s]; the alternation tries
    [CREATE TABLE] first and [INSERT INTO] when that way fails. *)
Definition match_table_name_at (s : str) : option str :=
  let try_kw (kw : str) :=
    if startswith s kw then match_after_keyword (drop (length kw) s) else None in
  match try_kw (lit "CREATE TABLE") with
  | Some g => Some g
  | None => try_kw (lit "INSERT INTO")
  end.

(** [re.search]: the leftmost position at which the pattern matches. *)
Fixpoint search_table_name (s : str) : option str :=
  match match_table_name_at s with
  | Some g => Some g
  | None => match s with
            | [] => None
            | _ :: s' => search_table_name s'
            end
  end.

Definition get_table_name (line : str) : option str := search_table_name line.

Definition is_create_table (line : str) : bool :=
  startswith (upper (strip line)) (lit "CREATE TABLE").

Definition is_insert (line : str) : bool :=
  startswith (upper (strip line)) (lit "INSERT INTO").

(** ** The schema extractor *)

Definition is_newline (c : ascii) : bool := Ascii.eqb c "010"%char.

(** The number of characters that the lazy run of non-newline characters
    and the closing star-slash take at the head of [s]. *)
Fixpoint block_close_len (s : str) : option nat :=
  match s with
  | [] => None
  | c :: s' =>
      if startswith s (lit "*/") then Some 2
      else if is_newline c then None
      else option_map S (block_close_len s')
  end.

(** The length of a block comment that starts at the head of [s]. *)
Definition block_comment_len (s : str) : option nat :=
  if startswith s (lit "/*")
  then option_map (fun n => 2 + n) (block_close_len (drop 2 s))
  else None.

(** The first [re.sub] of [get_column_names]: every block comment, found
    from left to right, is deleted; [skip] counts the characters of the
    comment being deleted. *)
Fixpoint sub_block_comments_from (s : str) (skip : nat) : str :=
  match s with
  | [] => []
  | c :: s' =>
      match skip with
      | S k => sub_block_comments_from s' k
      | O =>
          match block_comment_len s with
          | Some (S k) => sub_block_comments_from s' k
          | _ => c :: sub_block_comments_from s' 0
          end
      end
  end.
Definition sub_block_comments (s : str) : str := sub_block_comments_from s 0.

(** The run of non-newline characters up to the end anchor, at the head of
    [s]: the anchor holds at the end of the text and before a newline that
    ends the text.  The result is the text left after the match. *)
Fixpoint line_comment_rest (s : str) : option str :=
  match s with
  | [] => Some []
  | c :: s' =>
      if is_newline c
      then match s' with [] => Some s | _ => None end
      else line_comment_rest s'
  end.

(** The second [re.sub]: the leftmost double dash from which the rest of the
    text is one line is deleted with that line. *)
Fixpoint sub_line_comment (s : str) : str :=
  match s with
  | [] => []
  | c :: s' =>
      if startswith s (lit "--")
      then match line_comment_rest (drop 2 s) with
           | Some rest => rest
           | None => c :: sub_line_comment s'
           end
      else c :: sub_line_comment s'
  end.

Definition is_lparen (c : ascii) : bool := Ascii.eqb c "("%char.
Definition is_rparen (c : ascii) : bool := Ascii.eqb c ")"%char.
Definition is_comma (c : ascii) : bool := Ascii.eqb c ","%char.

(** The [re.search] of [get_column_names] (with DOTALL): the group lies
    between the first opening parenthesis and the last closing one. *)
Definition search_paren_group (s : str) : option str :=
  match drop_while (fun c => negb (is_lparen c)) s with
  | [] => None
  | _ :: r =>
      match drop_while (fun c => negb (is_rparen c)) (rev r) with
      | [] => None
      | _ :: q => Some (rev q)
      end
  end.

(** The loop over the characters of [content]. *)
Fixpoint split_parts (content : str) (paren_level : Z) (current : str)
    (parts : list str) : list str * str :=
  match content with
  | [] => (parts, current)
  | char :: rest =>
      if is_lparen char
      then split_parts rest (paren_level + 1)%Z (current ++ [char]) parts
      else if is_rparen char
      then split_parts rest (paren_level - 1)%Z (current ++ [char]) parts
      else if is_comma char && (paren_level =? 0)%Z
      then split_parts rest paren_level [] (parts ++ [current])
      else split_parts rest paren_level (current ++ [char]) parts
  end.

Definition constraint_keywords : list str :=
  [lit "PRIMARY KEY"; lit "FOREIGN KEY"; lit "UNIQUE"; lit "INDEX"; lit "KEY"].

(** [any(keyword in part.upper() for keyword in ...)] *)
Definition has_constraint_keyword (part : str) : bool :=
  existsb (fun keyword => contains (upper part) keyword) constraint_keywords.

(** The characters given to [strip] for a column name: backtick and double
    quote. *)
Definition name_quotes : str := ["`"%char; "034"%char].

Definition nonempty (s : str) : bool :=
  match s with [] => false | _ => true end.

(** The loop over [parts]; indexing the empty token list raises. *)
Fixpoint column_names (parts : list str) (columns : list str)
  : result (list str) :=
  match parts with
  | [] => Ok columns
  | part :: rest =>
      match split (strip part) with
      | [] => Raise IndexError
      | first :: _ =>
          let column := strip_chars first name_quotes in
          if nonempty column && negb (has_constraint_keyword part)
          then column_names rest (columns ++ [column])
          else column_names rest columns
      end
  end.

Definition get_column_names (line : str) : result (list str) :=
  let line := sub_block_comments line in
  let line := sub_line_comment line in
  match search_paren_group line with
  | None => Ok []
  | Some content =>
      let '(parts, current) := split_parts content 0%Z [] [] in
      let parts := if nonempty current then parts ++ [current] else parts in
      column_names parts []
  end.

(** ** The [csv.reader] of [parse_values]

    The reader of CPython's [_csv] module (as of CPython 3.11) for the
    dialect the program builds: delimiter comma, quote character the single quote, escape
    character the backslash, [doublequote] off, [skipinitialspace] off,
    minimal quoting, [strict] on.  With [doublequote] off the state
    reached after a quote inside a quoted field is never entered and is
    left out; with the field size limit at [sys.maxsize] no field is too
    long. *)

Module Csv.

Inductive ParserState :=
| START_RECORD | START_FIELD | ESCAPED_CHAR | IN_FIELD | IN_QUOTED_FIELD
| ESCAPE_IN_QUOTED_FIELD | EAT_CRNL | AFTER_ESCAPED_CRNL.

Record Reader := mkReader {
  state : ParserState;
  fields : list (list ascii);
  field : list ascii
}.

(** What the reader is fed: a character of the line, or the end of line
    marker that follows every line. *)
Inductive input := Chr (c : ascii) | EOL.

Definition delimiter : ascii := ","%char.
Definition quotechar : ascii := "'"%char.
Definition escapechar : ascii := "\"%char.

Definition is_crnl (c : ascii) : bool :=
  Ascii.eqb c "010"%char || Ascii.eqb c "013"%char.

Definition set_state (r : Reader) (st : ParserState) : Reader :=
  mkReader st (fields r) (field r).

(** [parse_save_field], followed by a move to [st] *)
Definition save_field (r : Reader) (st : ParserState) : Reader :=
  mkReader st (fields r ++ [field r]) [].

(** [parse_add_char], followed by a move to [st] *)
Definition add_char (r : Reader) (c : ascii) (st : ParserState) : Reader :=
  mkReader st (fields r) (field r ++ [c]).

Definition start_field (r : Reader) (c : input) : Reader :=
  match c with
  | EOL => save_field r START_RECORD
  | Chr a =>
      if is_crnl a then save_field r EAT_CRNL
      else if Ascii.eqb a quotechar then set_state r IN_QUOTED_FIELD
      else if Ascii.eqb a escapechar then set_state r ESCAPED_CHAR
      else if Ascii.eqb a delimiter then save_field r (state r)
      else add_char r a IN_FIELD
  end.

Definition in_field (r : Reader) (c : input) : Reader :=
  match c with
  | EOL => save_field r START_RECORD
  | Chr a =>
      if is_crnl a then save_field r EAT_CRNL
      else if Ascii.eqb a escapechar then set_state r ESCAPED_CHAR
      else if Ascii.eqb a delimiter then save_field r START_FIELD
      else add_char r a (state r)
  end.

Definition parse_process_char (r : Reader) (c : input) : result Reader :=
  match state r with
  | START_RECORD =>
      match c with
      | EOL => Ok r
      | Chr a =>
          if is_crnl a then Ok (set_state r EAT_CRNL)
          else Ok (start_field (set_state r START_FIELD) c)
      end
  | START_FIELD => Ok (start_field r c)
  | ESCAPED_CHAR =>
      match c with
      | Chr a =>
          if is_crnl a then Ok (add_char r a AFTER_ESCAPED_CRNL)
          else Ok (add_char r a IN_FIELD)
      | EOL => Ok (add_char r "010"%char IN_FIELD)
      end
  | AFTER_ESCAPED_CRNL =>
      match c with
      | EOL => Ok r
      | Chr _ => Ok (in_field r c)
      end
  | IN_FIELD => Ok (in_field r c)
  | IN_QUOTED_FIELD =>
      match c with
      | EOL => Ok r
      | Chr a =>
          if Ascii.eqb a escapechar then Ok (set_state r ESCAPE_IN_QUOTED_FIELD)
          else if Ascii.eqb a quotechar then Ok (set_state r IN_FIELD)
          else Ok (add_char r a (state r))
      end
  | ESCAPE_IN_QUOTED_FIELD =>
      match c with
      | Chr a => Ok (add_char r a IN_QUOTED_FIELD)
      | EOL => Ok (add_char r "010"%char IN_QUOTED_FIELD)
      end
  | EAT_CRNL =>
      match c with
      | Chr a => if is_crnl a then Ok r else Raise CsvError
      | EOL => Ok (set_state r START_RECORD)
      end
  end.

(** The characters of one line, then the end of line marker. *)
Fixpoint process_chars (r : Reader) (line : list ascii) : result Reader :=
  match line with
  | [] => parse_process_char r EOL
  | c :: line' => rbind (parse_process_char r (Chr c)) (fun r' => process_chars r' line')
  end.

(** [parse_reset] *)
Definition reset : Reader := mkReader START_RECORD [] [].

Definition is_start_record (st : ParserState) : bool :=
  match st with START_RECORD => true | _ => false end.
Definition is_in_quoted_field (st : ParserState) : bool :=
  match st with IN_QUOTED_FIELD => true | _ => false end.

(** Iterating the reader over [lines]: the records it yields, in order,
    and the exception that ends the iteration, if one does.  A record
    is complete when a line leaves the parser in [START_RECORD]; when the
    lines run out inside a record, strict mode raises. *)
Fixpoint reader_from (r : Reader) (lines : list (list ascii))
  : list (list (list ascii)) * option exn :=
  match lines with
  | [] =>
      if nonempty (field r) || is_in_quoted_field (state r)
      then ([], Some CsvError)
      else ([], None)
  | l :: rest =>
      match process_chars r l with
      | Raise e => ([], Some e)
      | Ok r' =>
          if is_start_record (state r')
          then let '(rows, e) := reader_from reset rest in (fields r' :: rows, e)
          else reader_from r' rest
      end
  end.

Definition reader (lines : list (list ascii)) := reader_from reset lines.

End Csv.

(** ** The tuple tokenizer *)

Abbreviation row := (list (list ascii)) (only parsing).

(** A [csv.writer] is the list of the records passed to [writerow],
    oldest first. *)
Abbreviation writer := (list (list (list ascii))) (only parsing).

Definition writerow (w : writer) (r : row) : writer := w ++ [r].

Definition get_values (line : str) : option str :=
  let '(_, _, after) := partition line (lit " VALUES ") in
  (* a partition always has three components *)
  Some after.

Definition values_sanity_check (values : str) : bool :=
  if negb (nonempty values) then false
  else if negb (startswith (strip values) (lit "(")) then false
  else true.

(** [latest_row[-1] = latest_row[-1][:-1]] *)
Definition strip_last_paren (latest_row : row) : row :=
  match rev latest_row with
  | [] => []
  | f :: before => rev (drop_last f :: before)
  end.

(** The test [len(latest_row) > 0 and latest_row[-1][-1] == ")"]; indexing
    an empty last field raises. *)
Definition last_field_closes (latest_row : row) : result bool :=
  match rev latest_row with
  | [] => Ok false
  | f :: _ => rbind (last_char f) (fun c => Ok (is_rparen c))
  end.

(** The body of the loop over the columns of a record. *)
Definition parse_column (column : str) (latest_row : row) (w : writer)
  : result (row * writer) :=
  if (length column =? 0) || eqb column (lit "NULL")
  then Ok (latest_row ++ [[]], w)
  else
    rbind
      (if startswith column (lit "(")
       then
         rbind (last_field_closes latest_row) (fun closes =>
           let '(latest_row, w) :=
             if closes
             then ([], writerow w (strip_last_paren latest_row))
             else (latest_row, w) in
           let column :=
             if length latest_row =? 0 then drop 1 column else column in
           Ok (column, latest_row, w))
       else Ok (column, latest_row, w))
      (fun '(column, latest_row, w) =>
         if endswith column (lit ");") || endswith column (lit "),")
         then
           let column := rstrip_chars column (lit ");,") in
           Ok ([], writerow w (latest_row ++ [column]))
         else Ok (latest_row ++ [column], w)).

(** The loop over the columns; when an iteration raises, what was written
    before stays written. *)
Fixpoint parse_columns (columns : list str) (latest_row : row) (w : writer)
  : writer * result row :=
  match columns with
  | [] => (w, Ok latest_row)
  | column :: rest =>
      match parse_column column latest_row w with
      | Ok (latest_row', w') => parse_columns rest latest_row' w'
      | Raise e => (w, Raise e)
      end
  end.

(** What follows the columns of a record. *)
Definition flush_row (latest_row : row) (w : writer) : row * writer :=
  if negb (length latest_row =? 0)
  then
    let latest_row :=
      match rev latest_row with
      | f :: _ => if endswith f (lit ")") then strip_last_paren latest_row
                  else latest_row
      | [] => latest_row
      end in
    ([], writerow w latest_row)
  else (latest_row, w).

(** The loop over the records of the reader. *)
Fixpoint parse_rows (rows : list row) (latest_row : row) (w : writer)
  : writer * result row :=
  match rows with
  | [] => (w, Ok latest_row)
  | reader_row :: rest =>
      match parse_columns reader_row latest_row w with
      | (w', Ok latest_row') =>
          let '(latest_row'', w'') := flush_row latest_row' w' in
          parse_rows rest latest_row'' w''
      | (w', Raise e) => (w', Raise e)
      end
  end.

(** [parse_values]: the writer afterwards, and the exception raised or the
    last value of [latest_row]. *)
Definition parse_values (values : str) (w : writer) : writer * result row :=
  let latest_row : row := [] in
  let values := strip values in
  let '(rows, e) := Csv.reader [values] in
  match parse_rows rows latest_row w with
  | (w', Ok latest_row') =>
      match e with
      | Some e => (w', Raise e)
      | None => (w', Ok latest_row')
      end
  | (w', Raise e') => (w', Raise e')
  end.

(** ** The driver

    [main] without its command line, the creation of the output directory
    and the closing of the files.  Opening a file is taken to succeed; it
    yields a fresh handle, the index of a new sink in [files]. *)

(** [output_file] stands for the file object and for the writer on it. *)
Record TableData := mkTableData {
  name : list ascii;
  headers : list (list ascii);
  output_file : nat
}.

(** An open file with the [csv.writer] on it. *)
Record sink := mkSink {
  path : list ascii;
  records : list (list (list ascii))
}.

Record state := mkState {
  tables : gmap (list ascii) TableData;
  current_table : option TableData;
  current_insert : list ascii;
  create_statement : list ascii;
  files : list sink
}.

Definition set_create_statement (st : state) (v : str) : state :=
  mkState (tables st) (current_table st) (current_insert st) v (files st).

Definition set_current_insert (st : state) (v : str) : state :=
  mkState (tables st) (current_table st) v (create_statement st) (files st).

Definition set_files (st : state) (v : list sink) : state :=
  mkState (tables st) (current_table st) (current_insert st)
    (create_statement st) v.

Definition initial : state := mkState ∅ None [] [] [].

Definition output_dir : str := lit "csv_output".

(** [os.path.join] of two components, on POSIX. *)
Definition path_join (a b : str) : str :=
  if startswith b (lit "/") then b
  else if negb (nonempty a) || endswith a (lit "/") then a ++ b
  else a ++ lit "/" ++ b.

(** The registration of a table: a new sink that receives the header. *)
Definition register_table (st : state) (table_name : str)
    (headers : list str) : state :=
  let output_path := path_join output_dir (table_name ++ lit ".csv") in
  let td := mkTableData table_name headers (length (files st)) in
  mkState (<[table_name := td]> (tables st)) (current_table st)
    (current_insert st) (create_statement st)
    (files st ++ [mkSink output_path (writerow [] headers)]).

(** What is done with a CREATE statement whose last line ends in a
    semicolon; [create_statement st] is the whole statement. *)
Definition complete_create (st : state) : state * result unit :=
  match get_table_name (create_statement st) with
  | Some table_name =>
      match get_column_names (create_statement st) with
      | Raise e => (st, Raise e)
      | Ok headers =>
          match headers with
          | [] => (set_create_statement st [], Ok tt)
          | _ :: _ =>
              (set_create_statement (register_table st table_name headers) [],
               Ok tt)
          end
      end
  | None => (set_create_statement st [], Ok tt)
  end.

(** The branch taken when a CREATE statement is being accumulated. *)
Definition continue_create (st : state) (line : str) : state * result unit :=
  if nonempty (create_statement st)
  then
    let st := set_create_statement st (create_statement st ++ lit " " ++ line) in
    if endswith line (lit ";") then complete_create st else (st, Ok tt)
  else (st, Ok tt).

(** The block that handles INSERT statements. *)
Definition handle_insert (st : state) (line : str) : state :=
  if is_insert line
  then
    match get_table_name line with
    | Some table_name =>
        match tables st !! table_name with
        | Some td =>
            mkState (tables st) (Some td) line (create_statement st) (files st)
        | None => st
        end
    | None => st
    end
  else if nonempty (current_insert st)
  then set_current_insert st (current_insert st ++ lit " " ++ line)
  else st.

(** [parse_values] on the writer of the file behind handle [h].  A run
    only holds handles of sinks that are open, so the sink is found. *)
Definition write_values (fs : list sink) (h : nat) (values : str)
  : list sink * result unit :=
  match fs !! h with
  | Some s =>
      let '(w, r) := parse_values values (records s) in
      (<[h := mkSink (path s) w]> fs,
       match r with Ok _ => Ok tt | Raise e => Raise e end)
  | None => (fs, Ok tt)
  end.

(** The block that processes complete INSERT statements. *)
Definition process_insert (st : state) (line : str) : state * result unit :=
  if nonempty (current_insert st) && contains line (lit ";")
  then
    match get_values (current_insert st), current_table st with
    | Some values, Some td =>
        if nonempty values && values_sanity_check values
        then
          let '(fs, r) := write_values (files st) (output_file td) values in
          match r with
          | Ok _ => (set_current_insert (set_files st fs) [], Ok tt)
          | Raise e => (set_files st fs, Raise e)
          end
        else (set_current_insert st [], Ok tt)
    | _, _ => (set_current_insert st [], Ok tt)
    end
  else (st, Ok tt).

(** The lines the loop passes over: empty ones and comments. *)
Definition skipped (line : str) : bool :=
  negb (nonempty line) || startswith line (lit "--")
  || startswith line (lit "/*").

(** The body of the loop over the lines of the dump. *)
Definition step (st : state) (raw : str) : state * result unit :=
  let line := strip raw in
  if skipped line then (st, Ok tt)
  else if is_create_table line then (set_create_statement st line, Ok tt)
  else
    match continue_create st line with
    | (st, Raise e) => (st, Raise e)
    | (st, Ok _) => process_insert (handle_insert st line) line
    end.

Fixpoint run (st : state) (lines : list str) : state * result unit :=
  match lines with
  | [] => (st, Ok tt)
  | line :: rest =>
      match step st line with
      | (st', Ok _) => run st' rest
      | (st', Raise e) => (st', Raise e)
      end
  end.

(** The lines of a text as iterating over the file gives them, each with
    its newline. *)
Fixpoint file_lines_from (text cur : str) : list str :=
  match text with
  | [] => match cur with [] => [] | _ => [cur] end
  | c :: text' =>
      if is_newline c then (cur ++ [c]) :: file_lines_from text' []
      else file_lines_from text' (cur ++ [c])
  end.
Definition file_lines (text : str) : list str := file_lines_from text [].

(** [main] on the lines of the dump file: the final state and the exit
    status, 1 when an exception reaches the handler. *)
Definition main (lines : list str) : state * Z :=
  match run initial lines with
  | (st, Ok _) => (st, 0%Z)
  | (st, Raise _) => (st, 1%Z)
  end.

(** The records that the sink of table [n] has received. *)
Definition table_records (st : state) (n : str) : option (list row) :=
  match tables st !! n with
  | Some td => option_map records (files st !! output_file td)
  | None => None
  end.

(** ** Predicates of the statements below *)

(** The line is one at which an accumulated CREATE statement is handed to
    the schema extractor: it is not passed over, does not begin a CREATE
    TABLE, finds a statement in the buffer and ends in a semicolon. *)
Definition completes_create (st : state) (raw : str) : bool :=
  let line := strip raw in
  negb (skipped line) && negb (is_create_table line)
  && nonempty (create_statement st) && endswith line (lit ";").

(** The line can complete no CREATE statement, whatever the buffer holds. *)
Definition never_completes (raw : str) : bool :=
  let line := strip raw in
  skipped line || is_create_table line || negb (endswith line (lit ";")).

(** The lines of a statement joined by single spaces, in the order in which
    [current_insert += ' ' + line] builds the text. *)
Definition join_lines (first : str) (more : list str) : str :=
  fold_left (fun acc line => acc ++ lit " " ++ line) more first.

(** A line that continues an INSERT statement: it is not passed over and
    begins neither a CREATE TABLE nor an INSERT. *)
Definition continuation_line (raw : str) : bool :=
  negb (skipped (strip raw)) && negb (is_create_table raw)
  && negb (is_insert raw).

(** A character of an unquoted scalar: not a comma, a quote, a backslash,
    a parenthesis, a semicolon or a line break. *)
Definition scalar_char (c : ascii) : bool :=
  negb (mem c (lit ",'\();") || Csv.is_crnl c).

Definition scalar (s : str) : bool := forallb scalar_char s.

(** Segments with a comma between each two. *)
Fixpoint join_commas (segs : list str) : str :=
  match segs with
  | [] => []
  | [seg] => seg
  | seg :: rest => seg ++ lit "," ++ join_commas rest
  end.

(** The parenthesis level after [s], read from level [level]; there is
    none when a comma of [s] stands at the level of the column list or
    below, where it would separate two segments. *)
Fixpoint nested_from (s : str) (level : Z) : option Z :=
  match s with
  | [] => Some level
  | c :: s' =>
      if is_lparen c then nested_from s' (level + 1)%Z
      else if is_rparen c then nested_from s' (level - 1)%Z
      else if is_comma c && (level <=? 0)%Z then None
      else nested_from s' level
  end.

(** A segment of a column list: its commas are inside deeper parentheses
    and its parentheses are closed. *)
Definition well_nested (s : str) : bool :=
  match nested_from s 0%Z with
  | Some level => (level =? 0)%Z
  | None => false
  end.

(** Only whitespace, or nothing. *)
Definition blank (s : str) : bool := forallb isspace s.



(** An unquoted character of the reader: it is taken as it is wherever it
    stands. *)
Definition plain (c : ascii) : Prop :=
  Csv.is_crnl c = false /\ Ascii.eqb c Csv.quotechar = false
  /\ Ascii.eqb c Csv.escapechar = false /\ Ascii.eqb c Csv.delimiter = false.

(** Every handle held by the registry or by the current table is that of
    an open sink. *)
Definition handles_valid (st : state) : Prop :=
  (forall n td, tables st !! n = Some td -> output_file td < length (files st))
  /\ (forall td, current_table st = Some td ->
        output_file td < length (files st)).

(** ** Predicates of the further properties *)

(** A name as the column loop appends it: not empty, without whitespace,
    and with no backtick or double quote left at either end. *)
Definition sound_name (c : str) : Prop :=
  c <> [] /\ Forall (fun x => isspace x = false) c
  /\ strip_chars c name_quotes = c.

(** The text of a tuple of fields, and of a VALUES clause of tuples that a
    semicolon ends. *)
Definition tuple_text (t : list str) : str :=
  lit "(" ++ join_commas t ++ lit ")".

Definition values_text (ts : list (list str)) : str :=
  join_commas (map tuple_text ts) ++ lit ";".

(** What the tokenizer makes of an unquoted scalar between the first and
    the last field of a tuple: the empty text and NULL become the empty
    string. *)
Definition decode_inner (f : str) : str :=
  if (length f =? 0) || eqb f (lit "NULL") then [] else f.

(** The fields after the first one: the last one is kept as it is. *)
Fixpoint decode_rest (fs : list str) : list str :=
  match fs with
  | [] => []
  | [l] => [l]
  | m :: fs' => decode_inner m :: decode_rest fs'
  end.

(** The row that the tokenizer writes for a tuple of unquoted scalars. *)
Definition decode_tuple (t : list str) : list str :=
  match t with
  | [] => []
  | f :: fs => f :: decode_rest fs
  end.

(** The fields that the reader finds in the text of a tuple: the first
    one begins with the opening parenthesis, and the last one ends with
    [suffix], the closing parenthesis and what follows it up to the next
    comma. *)
Fixpoint close_last (fs : list str) (suffix : str) : list str :=
  match fs with
  | [] => []
  | [l] => [l ++ suffix]
  | m :: fs' => m :: close_last fs' suffix
  end.

Definition open_first (t : list str) : list str :=
  match t with
  | [] => []
  | f :: fs => (lit "(" ++ f) :: fs
  end.

Definition tuple_fields (t : list str) (suffix : str) : list str :=
  close_last (open_first t) suffix.

(** The fields of a VALUES clause of the tuples [t :: ts]. *)
Fixpoint clause_fields (t : list str) (ts : list (list str)) : list str :=
  match ts with
  | [] => tuple_fields t (lit ");")
  | t' :: ts' => tuple_fields t (lit ")") ++ clause_fields t' ts'
  end.

(** [latest_row] between two tuples, where [prev] is the row of the tuple
    read last, if there is one: its last field still has the closing
    parenthesis, and it is not written yet. *)
Definition pending (prev : option (list str)) : list str :=
  match prev with
  | None => []
  | Some d => removelast d ++ [List.last d [] ++ lit ")"]
  end.

Definition unwritten (prev : option (list str)) : list (list str) :=
  match prev with
  | None => []
  | Some d => [d]
  end.

(** Every sink of [fs] is still in [fs'] behind the same handle, with the
    same path and with its records followed by others, if any. *)
Definition sinks_extend (fs fs' : list sink) : Prop :=
  forall h s, fs !! h = Some s ->
    exists s', fs' !! h = Some s' /\ path s' = path s
               /\ exists more, records s' = records s ++ more.


(** * Properties *)

(** ** Facts about the string primitives *)

Lemma eqb_true_iff (s t : list ascii) : eqb s t = true <-> s = t.
Proof.
  revert t. induction s as [|c s IH]; intros [|a t]; simpl; split; try done.
  - intros [Hc Hs]%andb_true_iff. apply Ascii.eqb_eq in Hc. apply IH in Hs.
    by subst.
  - intros [= -> ->]. rewrite Ascii.eqb_refl. simpl. by apply IH.
Qed.

Lemma eqb_false_intro (s t : list ascii) : s <> t -> eqb s t = false.
Proof.
  intros H. destruct (eqb s t) eqn:E; [|done].
  by apply eqb_true_iff in E.
Qed.

Lemma drop_while_snoc p (s : list ascii) c :
  p c = false -> drop_while p (s ++ [c]) = drop_while p s ++ [c].
Proof.
  intros Hc. induction s as [|a s IH]; simpl.
  - by rewrite Hc.
  - destruct (p a); [apply IH | done].
Qed.

Lemma rstrip_by_cons p c (s : list ascii) :
  p c = false -> rstrip_by p (c :: s) = c :: rstrip_by p s.
Proof.
  intros Hc. unfold rstrip_by. simpl.
  rewrite drop_while_snoc by done. by rewrite rev_app_distr.
Qed.

Lemma rstrip_by_nil p : rstrip_by p [] = [].
Proof. done. Qed.

Lemma drop_while_head p (s : list ascii) :
  match drop_while p s with [] => True | c :: _ => p c = false end.
Proof.
  induction s as [|a s IH]; simpl; [done|].
  destruct (p a) eqn:E; [apply IH | done].
Qed.

Lemma strip_head (s : list ascii) :
  match strip s with [] => True | c :: _ => isspace c = false end.
Proof.
  unfold strip, lstrip_by.
  pose proof (drop_while_head isspace s) as H.
  destruct (drop_while isspace s) as [|c u]; [done|].
  by rewrite rstrip_by_cons.
Qed.

Lemma strip_nonspace_head c (s : list ascii) :
  isspace c = false -> strip (c :: s) = c :: rstrip_by isspace s.
Proof.
  intros Hc. unfold strip, lstrip_by. simpl. rewrite Hc.
  by apply rstrip_by_cons.
Qed.

Lemma rstrip_by_idem p (s : list ascii) :
  rstrip_by p (rstrip_by p s) = rstrip_by p s.
Proof.
  unfold rstrip_by. rewrite rev_involutive.
  pose proof (drop_while_head p (rev s)) as H.
  destruct (drop_while p (rev s)) as [|c u] eqn:E; [done|].
  simpl. by rewrite H.
Qed.

Lemma strip_idem (s : list ascii) : strip (strip s) = strip s.
Proof.
  pose proof (strip_head s) as H.
  destruct (strip s) as [|c u] eqn:E; [done|].
  rewrite strip_nonspace_head by done.
  unfold strip, lstrip_by in E.
  destruct (drop_while isspace s) as [|c' u'] eqn:E'; [done|].
  pose proof (drop_while_head isspace s) as H'. rewrite E' in H'.
  rewrite rstrip_by_cons in E by done. injection E as -> <-.
  by rewrite rstrip_by_idem.
Qed.

Lemma is_create_table_strip raw :
  is_create_table (strip raw) = is_create_table raw.
Proof. unfold is_create_table. by rewrite strip_idem. Qed.

Lemma is_insert_strip raw : is_insert (strip raw) = is_insert raw.
Proof. unfold is_insert. by rewrite strip_idem. Qed.

(** ** The driver: lines that begin a CREATE TABLE *)

Lemma startswith_upper_head (u kw : list ascii) a :
  startswith (upper u) (a :: kw) = true ->
  exists c u', u = c :: u' /\ upper_char c = a.
Proof.
  destruct u as [|c u']; simpl; [done|].
  intros [Hc _]%andb_true_iff. apply Ascii.eqb_eq in Hc. eauto.
Qed.

Lemma is_create_table_not_skipped raw :
  is_create_table raw = true -> skipped (strip raw) = false.
Proof.
  unfold is_create_table. intros H.
  apply startswith_upper_head in H as (c & u' & -> & Hc).
  unfold skipped. simpl.
  destruct (Ascii.eqb_spec c "-"%char) as [->|_]; [by vm_compute in Hc|].
  destruct (Ascii.eqb_spec c "/"%char) as [->|_]; [by vm_compute in Hc|].
  done.
Qed.

Lemma is_insert_not_skipped raw :
  is_insert raw = true -> skipped (strip raw) = false.
Proof.
  unfold is_insert. intros H.
  apply startswith_upper_head in H as (c & u' & -> & Hc).
  unfold skipped. simpl.
  destruct (Ascii.eqb_spec c "-"%char) as [->|_]; [by vm_compute in Hc|].
  destruct (Ascii.eqb_spec c "/"%char) as [->|_]; [by vm_compute in Hc|].
  done.
Qed.

Lemma is_insert_not_create raw :
  is_insert raw = true -> is_create_table raw = false.
Proof.
  unfold is_insert, is_create_table. intros H.
  apply startswith_upper_head in H as (c & u' & -> & Hc).
  simpl. rewrite Hc. done.
Qed.

Lemma step_create_line st raw :
  is_create_table raw = true ->
  step st raw = (set_create_statement st (strip raw), Ok tt).
Proof.
  intros H. unfold step.
  rewrite (is_create_table_not_skipped raw H).
  by rewrite is_create_table_strip, H.
Qed.

(** The blocks that handle INSERT statements leave the registry, the
    CREATE buffer and the number of sinks alone. *)
Lemma handle_insert_frame st line :
  tables (handle_insert st line) = tables st
  /\ files (handle_insert st line) = files st
  /\ create_statement (handle_insert st line) = create_statement st.
Proof.
  unfold handle_insert.
  destruct (is_insert line).
  - destruct (get_table_name line) as [n|]; [|done].
    by destruct (tables st !! n).
  - by destruct (nonempty (current_insert st)).
Qed.

Lemma write_values_length fs h values :
  length (write_values fs h values).1 = length fs.
Proof.
  unfold write_values. destruct (fs !! h) as [s|]; [|done].
  destruct (parse_values values (records s)) as [w r]. simpl.
  by rewrite length_insert.
Qed.

Lemma process_insert_frame st line :
  tables (process_insert st line).1 = tables st
  /\ length (files (process_insert st line).1) = length (files st)
  /\ create_statement (process_insert st line).1 = create_statement st.
Proof.
  unfold process_insert.
  destruct (nonempty (current_insert st) && contains line (lit ";")); [|done].
  destruct (get_values (current_insert st)) as [values|]; [|done].
  destruct (current_table st) as [td|]; [|done].
  destruct (nonempty values && values_sanity_check values); [|done].
  pose proof (write_values_length (files st) (output_file td) values) as Hl.
  destruct (write_values (files st) (output_file td) values) as [fs r].
  by destruct r.
Qed.

Lemma nonempty_app_l (s t : list ascii) : nonempty s = true -> nonempty (s ++ t) = true.
Proof. by destruct s. Qed.

Lemma nonempty_true (s : list ascii) : nonempty s = true <-> s <> [].
Proof. by destruct s. Qed.

(** The conjuncts of [completes_create]. *)
Ltac completes_create_inv H :=
  let Hs := fresh "Hskip" in
  let Hc := fresh "Hcreate" in
  let Hn := fresh "Hbuffer" in
  let He := fresh "Hend" in
  unfold completes_create in H;
  apply andb_true_iff in H as [H He];
  apply andb_true_iff in H as [H Hn];
  apply andb_true_iff in H as [Hs Hc];
  apply negb_true_iff in Hs, Hc.

Lemma continue_create_no_completion st raw :
  completes_create st raw = false ->
  skipped (strip raw) = false -> is_create_table raw = false ->
  continue_create st (strip raw)
  = (if nonempty (create_statement st)
     then set_create_statement st
            (create_statement st ++ lit " " ++ strip raw)
     else st, Ok tt).
Proof.
  unfold completes_create. rewrite is_create_table_strip.
  intros Hcond Hs Hc. rewrite Hs, Hc in Hcond. cbn [negb andb] in Hcond.
  unfold continue_create.
  destruct (nonempty (create_statement st)); [|done].
  cbn [andb] in Hcond. by rewrite Hcond.
Qed.

Lemma step_no_completion st raw :
  completes_create st raw = false ->
  tables (step st raw).1 = tables st
  /\ length (files (step st raw).1) = length (files st)
  /\ (create_statement st <> [] -> create_statement (step st raw).1 <> []).
Proof.
  intros Hcond. unfold step.
  destruct (skipped (strip raw)) eqn:Hs; [done|].
  rewrite is_create_table_strip.
  destruct (is_create_table raw) eqn:Hc; cbn [fst].
  { repeat split; try done. intros _.
    unfold is_create_table in Hc.
    by apply startswith_upper_head in Hc as (c & u' & -> & _). }
  rewrite (continue_create_no_completion st raw) by done.
  set (st1 := if nonempty (create_statement st) then _ else st).
  assert (tables st1 = tables st /\ files st1 = files st
          /\ (create_statement st <> [] -> create_statement st1 <> []))
    as (Ht & Hf & Hb).
  { subst st1. destruct (nonempty (create_statement st)) eqn:Hn; [|done].
    repeat split; try done. intros _. cbn [create_statement set_create_statement].
    apply nonempty_true. by apply nonempty_app_l. }
  destruct (handle_insert_frame st1 (strip raw)) as (Ht2 & Hf2 & Hb2).
  destruct (process_insert_frame (handle_insert st1 (strip raw)) (strip raw))
    as (Ht3 & Hf3 & Hb3).
  rewrite Ht3, Hf3, Hb3, Ht2, Hf2, Hb2, Ht, Hf. done.
Qed.

Lemma handle_insert_empty_registry st line :
  tables st = ∅ -> current_insert st = [] -> handle_insert st line = st.
Proof.
  intros Ht Hi. unfold handle_insert.
  destruct (is_insert line).
  - destruct (get_table_name line) as [n|]; [|done].
    by rewrite Ht, lookup_empty.
  - by rewrite Hi.
Qed.

Lemma process_insert_idle st line :
  current_insert st = [] -> process_insert st line = (st, Ok tt).
Proof. intros Hi. unfold process_insert. by rewrite Hi. Qed.

Lemma step_never_completes st raw :
  tables st = ∅ -> files st = [] -> current_insert st = [] ->
  create_statement st <> [] -> never_completes raw = true ->
  exists st', step st raw = (st', Ok tt) /\ tables st' = ∅ /\ files st' = []
    /\ current_insert st' = [] /\ create_statement st' <> [].
Proof.
  intros Ht Hf Hi Hb Hn.
  pose proof (step_no_completion st raw) as Hframe.
  unfold completes_create in Hframe.
  unfold never_completes in Hn. unfold step in *.
  set (line := strip raw) in *.
  destruct (skipped line) eqn:Hs; [by exists st|].
  destruct (is_create_table line) eqn:Hc.
  { eexists; split; [done|]. specialize (Hframe eq_refl) as (_ & _ & Hb').
    repeat split; try done. by apply Hb'. }
  cbn [orb negb andb] in Hn, Hframe.
  apply negb_true_iff in Hn.
  unfold continue_create in *. rewrite Hn in *.
  destruct (nonempty (create_statement st)) eqn:Hne;
    [|by apply nonempty_true in Hb; rewrite Hb in Hne].
  rewrite handle_insert_empty_registry by done.
  rewrite process_insert_idle by done.
  eexists; split; [done|]. repeat split; try done.
  simpl. by destruct (create_statement st).
Qed.

Lemma run_never_completes rest : forall st,
  tables st = ∅ -> files st = [] -> current_insert st = [] ->
  create_statement st <> [] ->
  Forall (fun l => never_completes l = true) rest ->
  exists st', run st rest = (st', Ok tt) /\ tables st' = ∅ /\ files st' = []
    /\ create_statement st' <> [].
Proof.
  induction rest as [|raw rest IH]; intros st Ht Hf Hi Hb Hall.
  - by exists st.
  - inversion Hall as [|? ? Hraw Hrest]; subst.
    destruct (step_never_completes st raw Ht Hf Hi Hb Hraw)
      as (st1 & Hstep & Ht1 & Hf1 & Hi1 & Hb1).
    simpl. rewrite Hstep. by apply IH.
Qed.

(** C9.  A line that begins a CREATE TABLE only seeds the statement buffer,
    even when it ends in a semicolon.  A step on a line that does not
    complete an accumulated CREATE statement (the line is passed over, or
    begins a CREATE TABLE, or finds the buffer empty, or does not end in a
    semicolon) changes neither the registry nor the number of sinks and
    does not empty a buffer that holds a statement; the branch for the
    CREATE statement then only appends the line to the buffer.  A CREATE
    TABLE line followed only by lines that complete nothing leaves, at the
    end of the input, an empty registry, no sink and the statement still in
    the buffer. *)
Theorem create_line_only_seeds_buffer :
  (forall st raw, is_create_table raw = true ->
     step st raw = (set_create_statement st (strip raw), Ok tt))
  /\ (forall st raw, completes_create st raw = false ->
        tables (step st raw).1 = tables st
        /\ length (files (step st raw).1) = length (files st)
        /\ (create_statement st <> [] -> create_statement (step st raw).1 <> [])
        /\ (skipped (strip raw) = false -> is_create_table raw = false ->
            continue_create st (strip raw)
            = (if nonempty (create_statement st)
               then set_create_statement st
                      (create_statement st ++ lit " " ++ strip raw)
               else st, Ok tt)))
  /\ (forall raw rest, is_create_table raw = true ->
        Forall (fun l => never_completes l = true) rest ->
        exists st', run initial (raw :: rest) = (st', Ok tt)
          /\ tables st' = ∅ /\ files st' = [] /\ create_statement st' <> []).
Proof.
  split; [exact step_create_line|]. split.
  { intros st raw Hcond.
    destruct (step_no_completion st raw Hcond) as (Ht & Hf & Hb).
    repeat split; try done. by apply continue_create_no_completion. }
  intros raw rest Hc Hall. simpl. rewrite step_create_line by done.
  apply run_never_completes; try done.
  simpl. unfold is_create_table in Hc.
  apply startswith_upper_head in Hc as (c & u & -> & _). done.
Qed.

Lemma create_line_only_seeds_buffer_witness :
  step initial (lit "CREATE TABLE t (id INT);")
    = (set_create_statement initial (lit "CREATE TABLE t (id INT);"), Ok tt)
  /\ tables (step initial (lit "INSERT INTO t VALUES (1);")).1 = ∅
  /\ exists st',
       run initial [lit "CREATE TABLE t (id INT);"; lit "-- done"; lit "  KEY x"]
         = (st', Ok tt)
       /\ tables st' = ∅ /\ files st' = [] /\ create_statement st' <> [].
Proof.
  destruct create_line_only_seeds_buffer as (H1 & H2 & H3).
  split; [|split].
  - apply (H1 initial (lit "CREATE TABLE t (id INT);")). reflexivity.
  - apply (H2 initial (lit "INSERT INTO t VALUES (1);")). reflexivity.
  - apply (H3 (lit "CREATE TABLE t (id INT);") [lit "-- done"; lit "  KEY x"]).
    + reflexivity.
    + repeat constructor.
Defined.

(** ** The driver: a CREATE statement without columns *)





(** ** The driver: INSERT statements over several lines *)

Lemma contains_single_In (s : list ascii) c :
  contains s [c] = true <-> In c s.
Proof.
  induction s as [|a s IH]; simpl; [done|].
  rewrite orb_true_iff, IH, andb_true_r.
  split.
  - intros [H%Ascii.eqb_eq|H]; [by left|by right].
  - intros [->|H]; [left; apply Ascii.eqb_refl|by right].
Qed.

Lemma In_drop_while p (s : list ascii) c : In c (drop_while p s) -> In c s.
Proof.
  induction s as [|a s IH]; simpl; [done|].
  destruct (p a); [by right; apply IH|done].
Qed.

Lemma In_strip (s : list ascii) c : In c (strip s) -> In c s.
Proof.
  unfold strip, rstrip_by, lstrip_by.
  intros H%in_rev%In_drop_while%in_rev. by apply In_drop_while in H.
Qed.

Lemma contains_single_strip (s : list ascii) c :
  contains s [c] = false -> contains (strip s) [c] = false.
Proof.
  intros H. destruct (contains (strip s) [c]) eqn:E; [|done].
  apply contains_single_In, In_strip, contains_single_In in E. congruence.
Qed.

Lemma endswith_single_contains (s : list ascii) c :
  endswith s [c] = true -> contains s [c] = true.
Proof.
  unfold endswith. simpl. intros H. apply contains_single_In, in_rev.
  destruct (rev s) as [|a u]; [done|].
  simpl in H. rewrite andb_true_r in H. apply Ascii.eqb_eq in H. by left.
Qed.

Lemma step_without_terminator st raw :
  contains raw (lit ";") = false ->
  files (step st raw).1 = files st /\ (step st raw).2 = Ok tt.
Proof.
  intros H%contains_single_strip. unfold step. set (line := strip raw) in *.
  destruct (skipped line); [done|].
  destruct (is_create_table line); [done|].
  assert (endswith line (lit ";") = false) as Hend.
  { destruct (endswith line (lit ";")) eqn:E; [|done].
    apply endswith_single_contains in E. unfold lit in H. simpl in H.
    congruence. }
  unfold continue_create. rewrite Hend.
  assert (forall st0, process_insert (handle_insert st0 line) line
                      = (handle_insert st0 line, Ok tt)) as Hp.
  { intros st0. unfold process_insert. unfold lit in *. simpl in *.
    by rewrite H, andb_false_r. }
  destruct (nonempty (create_statement st)); rewrite Hp; cbn [fst snd];
    (split; [|done]).
  - by destruct (handle_insert_frame
                   (set_create_statement st
                      (create_statement st ++ lit " " ++ line)) line)
         as (_ & -> & _).
  - by destruct (handle_insert_frame st line) as (_ & -> & _).
Qed.

Lemma run_single st raw : run st [raw] = step st raw.
Proof. simpl. by destruct (step st raw) as [st' [[]|e]]. Qed.

Lemma run_app st l1 l2 st1 :
  run st l1 = (st1, Ok tt) -> run st (l1 ++ l2) = run st1 l2.
Proof.
  revert st. induction l1 as [|raw l1 IH]; intros st; simpl.
  - by intros [= ->].
  - destruct (step st raw) as [st' [[]|e]]; [apply IH|done].
Qed.

Lemma step_continuation T td cur F raw :
  cur <> [] -> continuation_line raw = true ->
  step (mkState T (Some td) cur [] F) raw
  = process_insert (mkState T (Some td) (cur ++ lit " " ++ strip raw) [] F)
      (strip raw).
Proof.
  intros Hcur Hc. unfold continuation_line in Hc.
  apply andb_true_iff in Hc as [Hc Hi]. apply andb_true_iff in Hc as [Hs Hc].
  apply negb_true_iff in Hs, Hc, Hi.
  unfold step. rewrite Hs, is_create_table_strip, Hc.
  unfold continue_create. cbn [create_statement nonempty].
  unfold handle_insert. rewrite is_insert_strip, Hi.
  cbn [current_insert]. by destruct cur.
Qed.

Lemma process_insert_without_terminator st line :
  contains line (lit ";") = false -> process_insert st line = (st, Ok tt).
Proof. intros H. unfold process_insert. by rewrite H, andb_false_r. Qed.

Lemma run_continuations T td F mids : forall cur,
  cur <> [] ->
  Forall (fun l => continuation_line l = true
                   /\ contains l (lit ";") = false) mids ->
  run (mkState T (Some td) cur [] F) mids
  = (mkState T (Some td) (join_lines cur (map strip mids)) [] F, Ok tt).
Proof.
  induction mids as [|raw mids IH]; intros cur Hcur Hall; [done|].
  inversion Hall as [|? ? [Hc Hsemi] Hrest]; subst.
  simpl. rewrite step_continuation by done.
  rewrite process_insert_without_terminator
    by (by apply (contains_single_strip raw ";"%char)).
  rewrite IH; [done| |done]. by destruct cur.
Qed.

Lemma join_lines_snoc cur mids l :
  join_lines cur (mids ++ [l]) = join_lines cur mids ++ lit " " ++ l.
Proof. unfold join_lines. by rewrite fold_left_app. Qed.

Lemma join_lines_nonempty cur mids : cur <> [] -> join_lines cur mids <> [].
Proof.
  revert cur. induction mids as [|l mids IH]; intros cur Hcur; [done|].
  simpl. apply IH. by destruct cur.
Qed.

Lemma process_insert_complete T td stmt F line values :
  contains line (lit ";") = true -> stmt <> [] ->
  get_values stmt = Some values ->
  nonempty values && values_sanity_check values = true ->
  files (process_insert (mkState T (Some td) stmt [] F) line).1
  = (write_values F (output_file td) values).1.
Proof.
  intros Hsemi Hne Hv Hok. unfold process_insert.
  cbn [current_insert current_table files]. rewrite Hsemi, Hv, Hok.
  destruct stmt; [done|]. cbn [nonempty andb].
  by destruct (write_values F (output_file td) values) as [fs [[]|e]].
Qed.

(** C7.  A line without a semicolon writes to no sink and raises nothing,
    whatever the state.  An INSERT statement for a registered table that
    is spread over a first line, continuation lines and a last line, the
    semicolon only in the last, is processed when the last line is read,
    and what is processed is the text of all its lines, stripped and joined
    by single spaces; until then the sinks are as before the statement, and
    afterwards they are what [parse_values] makes of them on the VALUES
    clause of that text, when the clause passes the checks. *)
Theorem multi_line_insert_reassembled :
  (forall st raw, contains raw (lit ";") = false ->
     files (step st raw).1 = files st /\ (step st raw).2 = Ok tt)
  /\ (forall st first mids last n td,
        create_statement st = [] ->
        is_insert first = true ->
        get_table_name (strip first) = Some n ->
        tables st !! n = Some td ->
        contains first (lit ";") = false ->
        Forall (fun l => continuation_line l = true
                         /\ contains l (lit ";") = false) mids ->
        continuation_line last = true ->
        run st (first :: mids)
        = (mkState (tables st) (Some td)
             (join_lines (strip first) (map strip mids)) [] (files st), Ok tt)
        /\ run st (first :: mids ++ [last])
           = process_insert
               (mkState (tables st) (Some td)
                  (join_lines (strip first) (map strip (mids ++ [last])))
                  [] (files st))
               (strip last)
        /\ (forall values,
              contains (strip last) (lit ";") = true ->
              get_values (join_lines (strip first) (map strip (mids ++ [last])))
              = Some values ->
              nonempty values && values_sanity_check values = true ->
              files (run st (first :: mids ++ [last])).1
              = (write_values (files st) (output_file td) values).1)).
Proof.
  split; [exact step_without_terminator|].
  intros st first mids last n td Hb Hins Hn Hlook Hsemi Hmids Hlast.
  assert (step st first
          = (mkState (tables st) (Some td) (strip first) [] (files st), Ok tt))
    as Hfirst.
  { unfold step. rewrite (is_insert_not_skipped first Hins).
    rewrite is_create_table_strip, (is_insert_not_create first Hins).
    unfold continue_create. rewrite Hb. cbn [nonempty].
    unfold handle_insert. rewrite is_insert_strip, Hins, Hn, Hlook, Hb.
    apply process_insert_without_terminator.
    by apply (contains_single_strip first ";"%char). }
  assert (strip first <> []) as Hne.
  { unfold is_insert in Hins.
    by apply startswith_upper_head in Hins as (c & u & -> & _). }
  assert (run st (first :: mids)
          = (mkState (tables st) (Some td)
               (join_lines (strip first) (map strip mids)) [] (files st), Ok tt))
    as Hrun.
  { simpl. rewrite Hfirst. by apply run_continuations. }
  split; [exact Hrun|].
  assert (run st (first :: mids ++ [last])
          = process_insert
              (mkState (tables st) (Some td)
                 (join_lines (strip first) (map strip (mids ++ [last])))
                 [] (files st))
              (strip last)) as Hwhole.
  { rewrite (app_comm_cons mids [last] first).
    rewrite (run_app _ _ _ _ Hrun), run_single.
    rewrite step_continuation by (by apply join_lines_nonempty || done).
    rewrite map_app. cbn [map]. by rewrite join_lines_snoc. }
  split; [exact Hwhole|].
  intros values Hsemi' Hv Hok. rewrite Hwhole.
  apply process_insert_complete; try done.
  by apply join_lines_nonempty.
Qed.

Lemma multi_line_insert_reassembled_witness :
  let st := (run initial [lit "CREATE TABLE t ("; lit "  a INT, b TEXT";
                          lit ");"]).1 in
  files (step st (lit "INSERT INTO t")).1 = files st
  /\ files (run st [lit "INSERT INTO t"; lit "  VALUES"]).1 = files st
  /\ option_map records
       (files (run st [lit "INSERT INTO t"; lit "  VALUES";
                       lit "  (1,'x'),(2,'y');"]).1 !! 0)
     = Some [[lit "a"; lit "b"]; [lit "1"; lit "x"]; [lit "2"; lit "y"]].
Proof.
  destruct multi_line_insert_reassembled as [H1 H2].
  set (st := (run initial [lit "CREATE TABLE t ("; lit "  a INT, b TEXT";
                           lit ");"]).1).
  destruct (H2 st (lit "INSERT INTO t") [lit "  VALUES"]
              (lit "  (1,'x'),(2,'y');") (lit "t")
              (mkTableData (lit "t") [lit "a"; lit "b"] 0)) as (Ha & Hb & _).
  - reflexivity.
  - reflexivity.
  - reflexivity.
  - vm_compute. reflexivity.
  - reflexivity.
  - repeat constructor.
  - reflexivity.
  - cbn [app] in Ha, Hb. split; [|split].
    + apply (H1 st (lit "INSERT INTO t")). reflexivity.
    + rewrite Ha. vm_compute. reflexivity.
    + rewrite Hb. vm_compute. reflexivity.
Defined.

(** ** The reader on unquoted text *)

Lemma process_chars_cons r c l :
  Csv.process_chars r (c :: l)
  = rbind (Csv.parse_process_char r (Csv.Chr c)) (fun r' => Csv.process_chars r' l).
Proof. done. Qed.

Lemma in_field_plain s : forall fs f rest,
  Forall plain s ->
  Csv.process_chars (Csv.mkReader Csv.IN_FIELD fs f) (s ++ rest)
  = Csv.process_chars (Csv.mkReader Csv.IN_FIELD fs (f ++ s)) rest.
Proof.
  induction s as [|c s IH]; intros fs f rest Hs.
  - by rewrite app_nil_r.
  - inversion Hs as [|? ? (H1 & H2 & H3 & H4) Hs']; subst.
    rewrite <- app_comm_cons, process_chars_cons.
    unfold Csv.parse_process_char, Csv.in_field. cbn [Csv.state].
    rewrite H1, H3, H4. cbn [rbind]. unfold Csv.add_char.
    cbn [Csv.fields Csv.field Csv.state].
    rewrite IH by done. by rewrite <- app_assoc.
Qed.

Lemma start_field_plain c l fs :
  plain c ->
  Csv.process_chars (Csv.mkReader Csv.START_FIELD fs []) (c :: l)
  = Csv.process_chars (Csv.mkReader Csv.IN_FIELD fs [c]) l.
Proof.
  intros (H1 & H2 & H3 & H4). rewrite process_chars_cons.
  unfold Csv.parse_process_char, Csv.start_field. cbn [Csv.state].
  by rewrite H1, H2, H3, H4.
Qed.

Lemma start_record_plain c l :
  plain c ->
  Csv.process_chars Csv.reset (c :: l)
  = Csv.process_chars (Csv.mkReader Csv.IN_FIELD [] [c]) l.
Proof.
  intros (H1 & H2 & H3 & H4). rewrite process_chars_cons.
  unfold Csv.parse_process_char, Csv.start_field, Csv.reset. cbn [Csv.state].
  rewrite H1. cbn [Csv.set_state Csv.state]. by rewrite H2, H3, H4.
Qed.

Lemma in_field_delimiter fs f l :
  Csv.process_chars (Csv.mkReader Csv.IN_FIELD fs f) (Csv.delimiter :: l)
  = Csv.process_chars (Csv.mkReader Csv.START_FIELD (fs ++ [f]) []) l.
Proof. done. Qed.

Lemma in_field_end fs f :
  Csv.process_chars (Csv.mkReader Csv.IN_FIELD fs f) []
  = Ok (Csv.mkReader Csv.START_RECORD (fs ++ [f]) []).
Proof. done. Qed.

(** One unquoted, non-empty field and what follows it. *)
Lemma in_field_fields fields : forall fs f,
  Forall plain f ->
  Forall (fun g => g <> [] /\ Forall plain g) fields ->
  Csv.process_chars (Csv.mkReader Csv.IN_FIELD fs [])
    (join_commas (f :: fields))
  = Ok (Csv.mkReader Csv.START_RECORD (fs ++ f :: fields) []).
Proof.
  induction fields as [|g fields IH]; intros fs f Hf Hall.
  - simpl. rewrite <- (app_nil_r f) at 1. rewrite in_field_plain by done.
    by rewrite in_field_end.
  - inversion Hall as [|? ? [Hg Hgp] Hrest]; subst.
    change (join_commas (f :: g :: fields))
      with (f ++ lit "," ++ join_commas (g :: fields)).
    rewrite in_field_plain by done. simpl app at 1.
    change (lit "," ++ join_commas (g :: fields))
      with (Csv.delimiter :: join_commas (g :: fields)).
    rewrite in_field_delimiter.
    destruct g as [|c g]; [done|].
    inversion Hgp as [|? ? Hc Hgp']; subst.
    assert (join_commas ((c :: g) :: fields)
            = c :: join_commas (g :: fields)) as ->.
    { by destruct fields. }
    rewrite start_field_plain by done.
    assert (Csv.process_chars (Csv.mkReader Csv.IN_FIELD (fs ++ [f]) [c])
              (join_commas (g :: fields))
            = Csv.process_chars (Csv.mkReader Csv.IN_FIELD (fs ++ [f]) [])
                (join_commas ((c :: g) :: fields))) as ->.
    { assert (join_commas ((c :: g) :: fields)
              = [c] ++ join_commas (g :: fields)) as -> by (by destruct fields).
      by rewrite in_field_plain by (by constructor). }
    rewrite IH by (by constructor || done).
    by rewrite <- app_assoc.
Qed.

Lemma reader_plain_fields c f fields :
  Forall plain (c :: f) ->
  Forall (fun g => g <> [] /\ Forall plain g) fields ->
  Csv.reader [join_commas ((c :: f) :: fields)]
  = ([(c :: f) :: fields], None).
Proof.
  intros Hf Hall. unfold Csv.reader. cbn [Csv.reader_from].
  assert (Csv.process_chars Csv.reset (join_commas ((c :: f) :: fields))
          = Ok (Csv.mkReader Csv.START_RECORD ((c :: f) :: fields) [])) as ->.
  { assert (join_commas ((c :: f) :: fields)
            = c :: join_commas (f :: fields)) as -> by (by destruct fields).
    inversion Hf as [|? ? Hc Hf']; subst.
    rewrite start_record_plain by done.
    assert (Csv.process_chars (Csv.mkReader Csv.IN_FIELD [] [c])
              (join_commas (f :: fields))
            = Csv.process_chars (Csv.mkReader Csv.IN_FIELD [] [])
                (join_commas ((c :: f) :: fields))) as ->.
    { assert (join_commas ((c :: f) :: fields)
              = [c] ++ join_commas (f :: fields)) as -> by (by destruct fields).
      by rewrite in_field_plain by (by constructor). }
    by rewrite in_field_fields. }
  done.
Qed.

(** ** The tokenizer on tuples of unquoted scalars *)

Lemma scalar_char_inv c :
  scalar_char c = true ->
  plain c /\ Ascii.eqb c "("%char = false /\ Ascii.eqb c ")"%char = false
  /\ Ascii.eqb c ";"%char = false.
Proof.
  unfold scalar_char, mem, lit, plain. simpl existsb.
  rewrite negb_true_iff, !orb_false_iff.
  intros ((Hc & Hq & He & Hl & Hr & Hs & _) & Hn).
  repeat split; assumption.
Qed.

Lemma scalar_Forall s : scalar s = true -> Forall (fun c => scalar_char c = true) s.
Proof. unfold scalar. by rewrite forallb_forall, List.Forall_forall. Qed.

Lemma scalar_plain s : scalar s = true -> Forall plain s.
Proof.
  intros H%scalar_Forall. eapply Forall_impl; [done|].
  intros c Hc. by apply scalar_char_inv in Hc as [? _].
Qed.

Lemma plain_lparen : plain "("%char. Proof. by repeat split. Qed.
Lemma plain_rparen : plain ")"%char. Proof. by repeat split. Qed.
Lemma plain_semicolon : plain ";"%char. Proof. by repeat split. Qed.

(** A scalar does not open or close a tuple. *)
Lemma scalar_startswith_lparen s t :
  scalar s = true -> startswith t (lit "(") = false ->
  startswith (s ++ t) (lit "(") = false.
Proof.
  intros Hs Ht. destruct s as [|c s]; [done|].
  apply scalar_Forall in Hs. inversion Hs as [|? ? Hc _]; subst.
  apply scalar_char_inv in Hc as (_ & Hc & _). simpl. by rewrite Hc.
Qed.

Lemma scalar_rev s : scalar s = true -> scalar (rev s) = true.
Proof.
  unfold scalar. rewrite !forallb_forall. intros H c Hc. apply H.
  by apply in_rev.
Qed.

Lemma scalar_endswith_close s x :
  scalar s = true -> endswith s [")"%char; x] = false.
Proof.
  intros Hs%scalar_rev. unfold endswith.
  destruct (rev s) as [|c u]; [done|].
  apply scalar_Forall in Hs. inversion Hs as [|? ? Hc _]; subst.
  simpl. destruct (Ascii.eqb_spec c x) as [->|]; [|done].
  destruct u as [|c' u]; [done|].
  inversion Hs as [|? ? _ Hu]; subst. inversion Hu as [|? ? Hc' _]; subst.
  apply scalar_char_inv in Hc' as (_ & _ & Hc' & _). by rewrite Hc'.
Qed.

Lemma rstrip_chars_scalar s :
  scalar s = true -> rstrip_chars (s ++ lit ");") (lit ");,") = s.
Proof.
  intros Hs%scalar_rev. unfold rstrip_chars, rstrip_by.
  rewrite rev_app_distr.
  change (drop_while (fun c => mem c (lit ");,")) (rev (lit ");") ++ rev s))
    with (drop_while (fun c => mem c (lit ");,")) (rev s)).
  assert (drop_while (fun c => mem c (lit ");,")) (rev s) = rev s) as ->.
  { destruct (rev s) as [|c u]; [done|].
    apply scalar_Forall in Hs. inversion Hs as [|? ? Hc _]; subst.
    unfold scalar_char in Hc. apply negb_true_iff, orb_false_iff in Hc as [Hc _].
    unfold mem, lit in *. simpl in *.
    rewrite !orb_false_iff in Hc. destruct Hc as (H1 & _ & _ & _ & H2 & H3 & _).
    by rewrite H1, H2, H3. }
  apply rev_involutive.
Qed.

Lemma last_char_snoc s c : last_char (s ++ [c]) = Ok c.
Proof. unfold last_char. by rewrite rev_unit. Qed.

Lemma drop_last_snoc s c : drop_last (s ++ [c]) = s.
Proof. unfold drop_last. rewrite rev_unit. simpl. apply rev_involutive. Qed.

Lemma strip_last_paren_snoc (r : list (list ascii)) f c :
  strip_last_paren (r ++ [f ++ [c]]) = r ++ [f].
Proof.
  unfold strip_last_paren. rewrite rev_unit, drop_last_snoc. simpl.
  by rewrite rev_involutive.
Qed.

Lemma last_field_closes_snoc (r : list (list ascii)) f :
  last_field_closes (r ++ [f ++ [")"%char]]) = Ok true.
Proof. unfold last_field_closes. by rewrite rev_unit, last_char_snoc. Qed.

(** The first column of the first tuple. *)
Lemma parse_column_open_first f w :
  endswith f (lit ");") = false -> endswith f (lit "),") = false ->
  parse_column ("("%char :: f) [] w = Ok ([f], w).
Proof.
  intros H1 H2. unfold parse_column.
  change (eqb ("("%char :: f) (lit "NULL")) with false.
  change (startswith ("("%char :: f) (lit "(")) with true.
  cbn [length Nat.eqb orb last_field_closes rev rbind skipn app].
  by rewrite drop_0, H1, H2.
Qed.

(** The first column of a later tuple: the row before it is written. *)
Lemma parse_column_open_next f (r : list (list ascii)) g w :
  endswith f (lit ");") = false -> endswith f (lit "),") = false ->
  parse_column ("("%char :: f) (r ++ [g ++ [")"%char]]) w
  = Ok ([f], writerow w (r ++ [g])).
Proof.
  intros H1 H2. unfold parse_column.
  change (eqb ("("%char :: f) (lit "NULL")) with false.
  change (startswith ("("%char :: f) (lit "(")) with true.
  cbn [length Nat.eqb orb].
  rewrite last_field_closes_snoc, strip_last_paren_snoc.
  cbn [rbind length Nat.eqb skipn app]. by rewrite drop_0, H1, H2.
Qed.

(** A column inside a tuple. *)
Lemma parse_column_inner column (r : list (list ascii)) w :
  column <> [] -> column <> lit "NULL" ->
  startswith column (lit "(") = false ->
  endswith column (lit ");") = false -> endswith column (lit "),") = false ->
  parse_column column r w = Ok (r ++ [column], w).
Proof.
  intros Hne Hnull Hopen H1 H2. unfold parse_column.
  rewrite (eqb_false_intro _ _ Hnull), Hopen.
  destruct column as [|c column]; [done|].
  cbn [length Nat.eqb orb rbind]. by rewrite H1, H2.
Qed.

(** The last column of the last tuple. *)
Lemma parse_column_close f (r : list (list ascii)) w :
  scalar f = true ->
  parse_column (f ++ lit ");") r w = Ok ([], writerow w (r ++ [f])).
Proof.
  intros Hf. unfold parse_column.
  assert (f ++ lit ");" <> lit "NULL") as Hnull.
  { intros H%(f_equal (@rev ascii)). rewrite rev_app_distr in H. done. }
  rewrite (eqb_false_intro _ _ Hnull).
  rewrite scalar_startswith_lparen by done.
  assert ((length (f ++ lit ");") =? 0) = false) as ->.
  { by destruct f. }
  cbn [orb rbind].
  assert (endswith (f ++ lit ");") (lit ");") = true) as ->.
  { unfold endswith. by rewrite rev_app_distr. }
  cbn [orb]. by rewrite rstrip_chars_scalar.
Qed.

Lemma strip_bracketed (s : list ascii) :
  strip ("("%char :: s ++ lit ";") = "("%char :: s ++ lit ";".
Proof.
  rewrite strip_nonspace_head by done. f_equal.
  unfold rstrip_by. rewrite rev_app_distr.
  change (drop_while isspace (rev (lit ";") ++ rev s))
    with (";"%char :: rev s).
  cbn [rev]. by rewrite rev_involutive.
Qed.

Lemma scalar_no_semicolon s :
  scalar s = true -> contains s (lit ";") = false.
Proof.
  intros Hs. destruct (contains s (lit ";")) eqn:E; [|done].
  apply (contains_single_In s ";"%char) in E.
  apply scalar_Forall in Hs. rewrite List.Forall_forall in Hs.
  apply Hs, scalar_char_inv in E as (_ & _ & _ & E). done.
Qed.

Lemma Forall_plain_snoc s c : Forall plain s -> plain c -> Forall plain (s ++ [c]).
Proof. intros Hs Hc. apply Forall_app. split; [done|]. by constructor. Qed.

(** C2.  For unquoted scalars [a], [b], [c] and [d], the tokenizer on the
    clause of the two tuples of [a], [b] and of [c], [d], ended by a
    semicolon, writes the row of [a] and [b], then the row of [c] and [d],
    and nothing else; no field holds a semicolon; the pending row is empty
    at the end. *)
Theorem parse_values_two_tuples a b c d w :
  scalar a = true -> scalar b = true -> scalar c = true -> scalar d = true ->
  parse_values
    (lit "(" ++ a ++ lit "," ++ b ++ lit "),(" ++ c ++ lit "," ++ d ++ lit ");")
    w
  = (w ++ [[a; b]; [c; d]], Ok [])
  /\ Forall (fun f => contains f (lit ";") = false) [a; b; c; d].
Proof.
  intros Ha Hb Hc Hd. split;
    [|by repeat constructor; apply scalar_no_semicolon].
  unfold parse_values.
  assert (lit "(" ++ a ++ lit "," ++ b ++ lit "),(" ++ c ++ lit ","
            ++ d ++ lit ");"
          = "("%char :: (a ++ lit "," ++ b ++ lit "),(" ++ c ++ lit ","
                           ++ d ++ lit ")") ++ lit ";") as ->.
  { cbn [lit list_ascii_of_string app join_commas].
    by repeat (rewrite <- app_assoc; cbn [app]). }
  rewrite strip_bracketed.
  assert ("("%char :: (a ++ lit "," ++ b ++ lit "),(" ++ c ++ lit ","
                         ++ d ++ lit ")") ++ lit ";"
          = join_commas [ "("%char :: a; b ++ [")"%char]; "("%char :: c;
                          d ++ lit ");" ]) as ->.
  { cbn [lit list_ascii_of_string app join_commas].
    by repeat (rewrite <- app_assoc; cbn [app]). }
  pose proof (scalar_plain a Ha) as Pa. pose proof (scalar_plain b Hb) as Pb.
  pose proof (scalar_plain c Hc) as Pc. pose proof (scalar_plain d Hd) as Pd.
  rewrite reader_plain_fields; cycle 1.
  { constructor; [apply plain_lparen | done]. }
  { repeat (apply List.Forall_cons; [split|]); try apply List.Forall_nil;
      try done; try (by destruct b); try (by destruct d);
      repeat first
        [ assumption | apply plain_lparen | apply plain_rparen
        | apply plain_semicolon | apply List.Forall_cons
        | apply List.Forall_nil | apply Forall_app; split ]. }
  cbn [parse_rows parse_columns].
  rewrite parse_column_open_first by (by apply scalar_endswith_close).
  rewrite parse_column_inner; cycle 1.
  { by destruct b. }
  { intros H%(f_equal (@rev ascii)). rewrite rev_unit in H. done. }
  { by apply scalar_startswith_lparen. }
  { unfold endswith. by rewrite rev_unit. }
  { unfold endswith. by rewrite rev_unit. }
  rewrite (parse_column_open_next c [a] b)
    by (by apply scalar_endswith_close).
  rewrite parse_column_close by done.
  cbn [flush_row length Nat.eqb negb]. unfold writerow.
  by rewrite <- app_assoc.
Qed.

Lemma parse_values_two_tuples_witness :
  parse_values (lit "(1,abc),(2.5,x y);") [[lit "n"; lit "s"]]
  = ([[lit "n"; lit "s"]; [lit "1"; lit "abc"]; [lit "2.5"; lit "x y"]], Ok [])
  /\ Forall (fun f => contains f (lit ";") = false)
       [lit "1"; lit "abc"; lit "2.5"; lit "x y"].
Proof.
  apply (parse_values_two_tuples (lit "1") (lit "abc") (lit "2.5") (lit "x y")
           [[lit "n"; lit "s"]]); reflexivity.
Defined.

(** ** The schema extractor on a list of segments *)

Lemma drop_while_app_stop p (s t : list ascii) c :
  Forall (fun a => p a = true) s -> p c = false ->
  drop_while p (s ++ c :: t) = c :: t.
Proof.
  intros Hs Hc. induction Hs as [|a s Ha _ IH]; simpl.
  - by rewrite Hc.
  - by rewrite Ha.
Qed.

Lemma not_contains_single (s : list ascii) c :
  contains s [c] = false -> Forall (fun a => negb (Ascii.eqb a c) = true) s.
Proof.
  intros H. apply List.Forall_forall. intros a Ha.
  apply negb_true_iff. destruct (Ascii.eqb_spec a c) as [->|]; [|done].
  apply contains_single_In in Ha. congruence.
Qed.

Lemma search_paren_group_between pre content suf :
  contains pre (lit "(") = false -> contains suf (lit ")") = false ->
  search_paren_group (pre ++ lit "(" ++ content ++ lit ")" ++ suf)
  = Some content.
Proof.
  intros Hpre%not_contains_single Hsuf%not_contains_single.
  unfold search_paren_group.
  change (pre ++ lit "(" ++ content ++ lit ")" ++ suf)
    with (pre ++ "("%char :: content ++ ")"%char :: suf).
  rewrite (drop_while_app_stop _ pre) by done.
  rewrite rev_app_distr. cbn [rev]. rewrite <- app_assoc. cbn [app].
  rewrite (drop_while_app_stop _ (rev suf)); [|by apply Forall_rev|done].
  by rewrite rev_involutive.
Qed.

Lemma split_parts_segment seg : forall level level' current parts rest,
  nested_from seg level = Some level' ->
  split_parts (seg ++ rest) level current parts
  = split_parts rest level' (current ++ seg) parts.
Proof.
  induction seg as [|c seg IH]; intros level level' current parts rest H.
  - simpl in *. injection H as ->. by rewrite app_nil_r.
  - cbn [nested_from] in H. cbn [app split_parts].
    replace (current ++ c :: seg) with ((current ++ [c]) ++ seg)
      by (by rewrite <- app_assoc).
    destruct (is_lparen c); [by apply IH|].
    destruct (is_rparen c); [by apply IH|].
    destruct (is_comma c) eqn:Hc; cbn [andb] in *.
    + destruct (level <=? 0)%Z eqn:Hl; [done|].
      assert ((level =? 0)%Z = false) as -> by lia. by apply IH.
    + by apply IH.
Qed.

Lemma well_nested_inv seg :
  well_nested seg = true -> nested_from seg 0%Z = Some 0%Z.
Proof.
  unfold well_nested. destruct (nested_from seg 0%Z) as [level|]; [|done].
  intros H. f_equal. lia.
Qed.

Lemma split_parts_comma rest current parts :
  split_parts (lit "," ++ rest) 0%Z current parts
  = split_parts rest 0%Z [] (parts ++ [current]).
Proof. done. Qed.

Lemma split_parts_join segs : forall seg parts,
  Forall (fun s => well_nested s = true) (seg :: segs) ->
  split_parts (join_commas (seg :: segs)) 0%Z [] parts
  = (parts ++ removelast (seg :: segs), List.last (seg :: segs) []).
Proof.
  induction segs as [|seg' segs IH]; intros seg parts Hall;
    inversion Hall as [|? ? Hseg Hrest]; subst.
  - cbn [join_commas removelast List.last].
    rewrite <- (app_nil_r seg) at 1.
    rewrite (split_parts_segment seg 0%Z 0%Z) by (by apply well_nested_inv).
    by rewrite app_nil_r.
  - change (join_commas (seg :: seg' :: segs))
      with (seg ++ lit "," ++ join_commas (seg' :: segs)).
    rewrite (split_parts_segment seg 0%Z 0%Z) by (by apply well_nested_inv).
    rewrite split_parts_comma, IH by done.
    change (removelast (seg :: seg' :: segs))
      with (seg :: removelast (seg' :: segs)).
    change (List.last (seg :: seg' :: segs) [])
      with (List.last (seg' :: segs) []).
    by rewrite <- app_assoc.
Qed.

(** The parts that the column loop is given. *)
Lemma get_column_names_parts stmt pre segs suf :
  sub_line_comment (sub_block_comments stmt)
  = pre ++ lit "(" ++ join_commas segs ++ lit ")" ++ suf ->
  contains pre (lit "(") = false -> contains suf (lit ")") = false ->
  Forall (fun s => well_nested s = true) segs ->
  get_column_names stmt
  = column_names
      (if nonempty (List.last segs []) then segs else removelast segs) [].
Proof.
  intros Hstmt Hpre Hsuf Hall. unfold get_column_names.
  rewrite Hstmt, search_paren_group_between by done.
  destruct segs as [|seg segs]; [done|].
  rewrite split_parts_join by done. cbn [app].
  destruct (nonempty (List.last (seg :: segs) [])); [|done].
  by rewrite <- app_removelast_last.
Qed.

(** ** The column loop *)

Lemma drop_while_all p (s : list ascii) :
  forallb p s = true -> drop_while p s = [].
Proof.
  induction s as [|c s IH]; simpl; [done|].
  intros [-> Hs]%andb_true_iff. by apply IH.
Qed.

Lemma strip_blank s : blank s = true -> strip s = [].
Proof.
  intros H. unfold strip, lstrip_by. by rewrite (drop_while_all _ _ H).
Qed.










Lemma column_names_blank parts : forall columns,
  Exists (fun p => blank p = true) parts ->
  column_names parts columns = Raise IndexError.
Proof.
  induction parts as [|part parts IH]; intros columns H;
    inversion H as [? ? Hb|? ? Hrest]; subst; cbn [column_names].
  - by rewrite (strip_blank part Hb).
  - destruct (split (strip part)) as [|first toks]; [done|].
    destruct (_ && _); by apply IH.
Qed.





(** ** A segment of whitespace *)

Lemma get_column_names_blank_segment stmt pre before ws after suf :
  sub_line_comment (sub_block_comments stmt)
  = pre ++ lit "(" ++ join_commas (before ++ ws :: after) ++ lit ")" ++ suf ->
  contains pre (lit "(") = false -> contains suf (lit ")") = false ->
  Forall (fun s => well_nested s = true) (before ++ ws :: after) ->
  blank ws = true -> after <> [] \/ ws <> [] ->
  get_column_names stmt = Raise IndexError.
Proof.
  intros Hstmt Hpre Hsuf Hnest Hws Hpos.
  rewrite (get_column_names_parts stmt pre _ suf Hstmt) by done.
  apply column_names_blank.
  destruct (nonempty (List.last (before ++ ws :: after) [])) eqn:Hlast.
  - apply Exists_app. right. by left.
  - destruct after as [|x after].
    + rewrite last_last in Hlast. destruct Hpos as [|Hpos]; [done|].
      by destruct ws.
    + rewrite removelast_app by done. apply Exists_app. right. by left.
Qed.

Lemma step_create_raises st raw n e :
  completes_create st raw = true ->
  get_table_name (create_statement st ++ lit " " ++ strip raw) = Some n ->
  get_column_names (create_statement st ++ lit " " ++ strip raw) = Raise e ->
  step st raw
  = (set_create_statement st (create_statement st ++ lit " " ++ strip raw),
     Raise e).
Proof.
  intros Hc Hname Hcols. completes_create_inv Hc.
  unfold step. rewrite Hskip, Hcreate. unfold continue_create.
  rewrite Hbuffer, Hend.
  unfold complete_create. cbn [create_statement set_create_statement].
  by rewrite Hname, Hcols.
Qed.

Lemma main_raise lines st e :
  run initial lines = (st, Raise e) -> main lines = (st, 1%Z).
Proof. intros H. unfold main. by rewrite H. Qed.

(** C10.  The schema extractor raises IndexError on the statement with a
    blank after the last comma of its column list, and on every statement
    whose column list has a whitespace-only segment before a comma, or a
    non-empty one after the last comma (nothing at all after the last
    comma is no segment, and raises nothing).  A step that completes a CREATE
    statement on which the extractor raises ends in that exception, and a
    run that ends in an exception exits with status 1: so does the run on
    a CREATE TABLE of three lines with such a column list, which registers
    no table and opens no sink. *)
Theorem get_column_names_raises_on_blank_segment :
  get_column_names (lit "CREATE TABLE t (a INT, );") = Raise IndexError
  /\ get_column_names (lit "CREATE TABLE t (a INT,);") = Ok [lit "a"]
  /\ (forall stmt pre before ws after suf,
        sub_line_comment (sub_block_comments stmt)
        = pre ++ lit "(" ++ join_commas (before ++ ws :: after) ++ lit ")"
            ++ suf ->
        contains pre (lit "(") = false -> contains suf (lit ")") = false ->
        Forall (fun s => well_nested s = true) (before ++ ws :: after) ->
        blank ws = true -> after <> [] \/ ws <> [] ->
        get_column_names stmt = Raise IndexError)
  /\ (forall st raw n e,
        completes_create st raw = true ->
        get_table_name (create_statement st ++ lit " " ++ strip raw) = Some n ->
        get_column_names (create_statement st ++ lit " " ++ strip raw)
        = Raise e ->
        step st raw
        = (set_create_statement st
             (create_statement st ++ lit " " ++ strip raw), Raise e))
  /\ (forall lines st e,
        run initial lines = (st, Raise e) -> main lines = (st, 1%Z))
  /\ main [lit "CREATE TABLE t ("; lit "  a INT,"; lit ");"]
     = (set_create_statement initial (lit "CREATE TABLE t ( a INT, );"), 1%Z).
Proof.
  split; [by vm_compute|]. split; [by vm_compute|].
  split; [exact get_column_names_blank_segment|].
  split; [exact step_create_raises|].
  split; [exact main_raise|].
  by vm_compute.
Qed.

Lemma get_column_names_raises_on_blank_segment_witness :
  get_column_names (lit "CREATE TABLE t (a INT, , b DECIMAL(10,2)) -- two")
  = Raise IndexError
  /\ step (set_create_statement initial (lit "CREATE TABLE t ( a INT,"))
       (lit ");")
     = (set_create_statement initial (lit "CREATE TABLE t ( a INT, );"),
        Raise IndexError)
  /\ main [lit "CREATE TABLE t ("; lit "  a INT,"; lit ");"]
     = (set_create_statement initial (lit "CREATE TABLE t ( a INT, );"), 1%Z).
Proof.
  destruct get_column_names_raises_on_blank_segment
    as (_ & _ & H2 & H3 & H4 & _).
  split; [|split].
  - apply (H2 (lit "CREATE TABLE t (a INT, , b DECIMAL(10,2)) -- two")
              (lit "CREATE TABLE t ") [lit "a INT"] (lit " ")
              [lit " b DECIMAL(10,2)"] (lit " ")).
    + vm_compute. reflexivity.
    + reflexivity.
    + reflexivity.
    + repeat constructor.
    + reflexivity.
    + left. discriminate.
  - apply (H3 (set_create_statement initial (lit "CREATE TABLE t ( a INT,"))
              (lit ");") (lit "t") IndexError).
    + reflexivity.
    + reflexivity.
    + vm_compute. reflexivity.
  - apply (H4 [lit "CREATE TABLE t ("; lit "  a INT,"; lit ");"] _ IndexError).
    vm_compute. reflexivity.
Defined.

(** ** The handles of a run *)

Lemma handles_valid_initial : handles_valid initial.
Proof.
  split; [|done]. intros n td H. cbn [initial tables] in H.
  by rewrite lookup_empty in H.
Qed.

Lemma handles_valid_create_statement st v :
  handles_valid st -> handles_valid (set_create_statement st v).
Proof. done. Qed.

Lemma handles_valid_register st n hs :
  handles_valid st -> handles_valid (register_table st n hs).
Proof.
  intros [Ht Hc]. unfold register_table. split; cbn [tables files current_table].
  - intros m td. rewrite length_app. cbn [length].
    destruct (decide (n = m)) as [->|Hne].
    + rewrite lookup_insert_eq. intros [= <-]. cbn [output_file]. lia.
    + rewrite lookup_insert_ne by done. intros H%Ht. lia.
  - intros td H%Hc. rewrite length_app. lia.
Qed.

Lemma handles_valid_complete_create st :
  handles_valid st -> handles_valid (complete_create st).1.
Proof.
  intros H. unfold complete_create.
  destruct (get_table_name (create_statement st)) as [n|]; [|done].
  destruct (get_column_names (create_statement st)) as [[|h hs]|e]; try done.
  by apply handles_valid_create_statement, handles_valid_register.
Qed.

Lemma handles_valid_continue_create st line :
  handles_valid st -> handles_valid (continue_create st line).1.
Proof.
  intros H. unfold continue_create.
  destruct (nonempty (create_statement st)); [|done].
  destruct (endswith line (lit ";")); [|done].
  by apply handles_valid_complete_create.
Qed.

Lemma handles_valid_handle_insert st line :
  handles_valid st -> handles_valid (handle_insert st line).
Proof.
  intros [Ht Hc]. unfold handle_insert.
  destruct (is_insert line).
  - destruct (get_table_name line) as [n|]; [|done].
    destruct (tables st !! n) as [td|] eqn:Hn; [|done].
    split; [done|]. cbn [current_table files]. intros ? [= <-]. by eapply Ht.
  - by destruct (nonempty (current_insert st)).
Qed.

Lemma handles_valid_process_insert st line :
  handles_valid st -> handles_valid (process_insert st line).1.
Proof.
  intros [Ht Hc].
  destruct (process_insert_frame st line) as (Ht' & Hf' & _).
  assert (current_table (process_insert st line).1 = current_table st) as Hc'.
  { unfold process_insert.
    destruct (_ && _); [|done].
    destruct (get_values (current_insert st)); [|done].
    destruct (current_table st) as [td|] eqn:E; [|by cbn; rewrite E].
    destruct (_ && _); [|by cbn; rewrite E].
    destruct (write_values _ _ _) as [fs [[]|e]]; by cbn; rewrite E. }
  split; rewrite ?Ht', ?Hc', Hf'; done.
Qed.

Lemma handles_valid_step st raw :
  handles_valid st -> handles_valid (step st raw).1.
Proof.
  intros H. unfold step.
  destruct (skipped (strip raw)); [done|].
  destruct (is_create_table (strip raw)); [done|].
  pose proof (handles_valid_continue_create st (strip raw) H) as H1.
  destruct (continue_create st (strip raw)) as [st1 [[]|e]]; [|done].
  by apply handles_valid_process_insert, handles_valid_handle_insert.
Qed.

(** In every state that a run reaches, the handles are those of open
    sinks: [write_values] always finds the sink it is to write to. *)
Lemma handles_valid_run lines : forall st,
  handles_valid st -> handles_valid (run st lines).1.
Proof.
  induction lines as [|raw lines IH]; intros st H; [done|].
  cbn [run]. pose proof (handles_valid_step st raw H) as H1.
  destruct (step st raw) as [st1 [[]|e]]; [by apply IH|done].
Qed.

Lemma handles_valid_main lines : handles_valid (main lines).1.
Proof.
  pose proof (handles_valid_run lines initial handles_valid_initial) as H.
  unfold main. by destruct (run initial lines) as [st [[]|e]].
Qed.

(** ** The program on particular inputs *)

(** C1.  On the dump of the two lines
    [CREATE TABLE t (id INT, name VARCHAR(10));] and
    [INSERT INTO t VALUES (1,'a'),(2,'b');] the run ends with status 0 and
    the sink of table [t] holds a header of four names, the last two cut
    out of the INSERT line, and then the two rows: the first line only
    seeds the buffer, and the statement handed to the schema extractor is
    the text of both lines. *)
Theorem one_line_create_takes_insert_line_into_header :
  let text := lit "CREATE TABLE t (id INT, name VARCHAR(10));
INSERT INTO t VALUES (1,'a'),(2,'b');
" in
  file_lines text
  = [lit "CREATE TABLE t (id INT, name VARCHAR(10));" ++ ["010"%char];
     lit "INSERT INTO t VALUES (1,'a'),(2,'b');" ++ ["010"%char]]
  /\ table_records (main (file_lines text)).1 (lit "t")
     = Some [[lit "id"; lit "name"; lit "'a'),(2"; lit "'b'"];
             [lit "1"; lit "a"]; [lit "2"; lit "b"]]
  /\ (main (file_lines text)).2 = 0%Z
  /\ get_column_names
       (lit "CREATE TABLE t (id INT, name VARCHAR(10)); INSERT INTO t VALUES (1,'a'),(2,'b');")
     = Ok [lit "id"; lit "name"; lit "'a'),(2"; lit "'b'"]
  /\ get_column_names (lit "CREATE TABLE t (id INT, name VARCHAR(10));")
     = Ok [lit "id"; lit "name"].
Proof. by vm_compute. Qed.

(** C3.  The statement kind is recognised in any letter case, but the table
    name is found only after the keywords in upper case: on
    [create table t (id INT);] and on [insert into t values (1);] the kind
    is recognised and no name is returned, where the same statements with
    the keywords in upper case give the name [t]. *)
Theorem get_table_name_keywords_case_sensitive :
  is_create_table (lit "create table t (id INT);") = true
  /\ get_table_name (lit "create table t (id INT);") = None
  /\ is_insert (lit "insert into t values (1);") = true
  /\ get_table_name (lit "insert into t values (1);") = None
  /\ get_table_name (lit "CREATE TABLE t (id INT);") = Some (lit "t")
  /\ get_table_name (lit "INSERT INTO `t` values (1);") = Some (lit "t").
Proof. by vm_compute. Qed.

(** C4.  A NULL that is the first or the last field of a tuple stays the
    text NULL in the row that is written; between other fields it becomes
    the empty string, as an empty field does in every position. *)
Theorem null_at_tuple_ends_not_decoded :
  parse_values (lit "(NULL,1,NULL);") []
  = ([[lit "NULL"; lit "1"; lit "NULL"]], Ok [])
  /\ parse_values (lit "(1,NULL,2),(3,NULL,4);") []
     = ([[lit "1"; []; lit "2"]; [lit "3"; []; lit "4"]], Ok [])
  /\ parse_values (lit "(,1,);") [] = ([[[]; lit "1"; []]], Ok []).
Proof. by vm_compute. Qed.

(** C6.  A quoted field that is the first of its tuple is read as unquoted
    text, the parenthesis before it having begun the field: it is split at
    the comma inside the quotes, and keeps its quotes around an escaped
    quote.  In another position the same field is one field, without its
    quotes and with the escape resolved. *)
Theorem quoted_first_field_split_at_comma :
  parse_values (lit "('a,b',1);") []
  = ([[lit "'a"; lit "b'"; lit "1"]], Ok [])
  /\ parse_values (lit "('it\'s',1);") [] = ([[lit "'it's'"; lit "1"]], Ok [])
  /\ parse_values (lit "(1,'a,b',2);") []
     = ([[lit "1"; lit "a,b"; lit "2"]], Ok [])
  /\ parse_values (lit "(1,'it\'s',2);") []
     = ([[lit "1"; lit "it's"; lit "2"]], Ok []).
Proof. by vm_compute. Qed.

(** ** More on the statement classifier *)

Lemma take_while_all p (s : list ascii) :
  forallb p (take_while p s) = true.
Proof.
  induction s as [|c s IH]; simpl; [done|].
  destruct (p c) eqn:E; [|done]. simpl. by rewrite E.
Qed.

Lemma take_while_app_stop p (s t : list ascii) :
  forallb p s = true ->
  match t with [] => True | c :: _ => p c = false end ->
  take_while p (s ++ t) = s.
Proof.
  intros Hs Ht. induction s as [|a s IH]; simpl.
  - destruct t as [|c t]; [done|]. simpl. by rewrite Ht.
  - simpl in Hs. apply andb_true_iff in Hs as [-> Hs]. by rewrite IH.
Qed.

Lemma match_name_inv s g :
  match_name s = Some g -> g <> [] /\ forallb is_name_char g = true.
Proof.
  unfold match_name. pose proof (take_while_all is_name_char s) as H.
  destruct (take_while is_name_char s) as [|c u]; [done|].
  by intros [= <-].
Qed.

Lemma match_after_keyword_inv r g :
  match_after_keyword r = Some g -> g <> [] /\ forallb is_name_char g = true.
Proof.
  unfold match_after_keyword.
  destruct r as [|c r1]; [done|].
  destruct (Ascii.eqb c " "); [|done].
  destruct r1 as [|q r2]; [apply match_name_inv|].
  destruct (is_backtick_or_dquote q); [|apply match_name_inv].
  destruct (match_name r2) as [g'|] eqn:E; [|apply match_name_inv].
  intros [= <-]. by apply match_name_inv in E.
Qed.

Lemma match_table_name_at_inv s g :
  match_table_name_at s = Some g ->
  g <> [] /\ forallb is_name_char g = true.
Proof.
  unfold match_table_name_at.
  destruct (startswith s (lit "CREATE TABLE")).
  - destruct (match_after_keyword _) as [g'|] eqn:E.
    + intros [= <-]. by apply match_after_keyword_inv in E.
    + destruct (startswith s (lit "INSERT INTO")); [|done].
      apply match_after_keyword_inv.
  - destruct (startswith s (lit "INSERT INTO")); [|done].
    apply match_after_keyword_inv.
Qed.

(** X1.  A table name that [get_table_name] returns is never empty and
    holds no backtick, double quote, whitespace or opening parenthesis. *)
Theorem get_table_name_is_a_name line g :
  get_table_name line = Some g ->
  g <> [] /\ forallb is_name_char g = true.
Proof.
  unfold get_table_name. induction line as [|c line IH]; simpl.
  - done.
  - destruct (match_table_name_at (c :: line)) as [g'|] eqn:E; [|done].
    intros [= <-]. by apply match_table_name_at_inv in E.
Qed.

Lemma get_table_name_is_a_name_witness :
  lit "users" <> [] /\ forallb is_name_char (lit "users") = true.
Proof.
  apply (get_table_name_is_a_name (lit "INSERT INTO `users` VALUES (1);")).
  reflexivity.
Defined.

Lemma is_name_char_not_quote c :
  is_name_char c = true -> is_backtick_or_dquote c = false.
Proof.
  unfold is_name_char. rewrite negb_true_iff, !orb_false_iff. by intros [[? ?] ?].
Qed.

Lemma match_name_app name rest :
  name <> [] -> forallb is_name_char name = true ->
  match rest with [] => True | c :: _ => is_name_char c = false end ->
  match_name (name ++ rest) = Some name.
Proof.
  intros Hne Hname Hrest. unfold match_name.
  rewrite take_while_app_stop by done. by destruct name.
Qed.

Lemma match_after_keyword_name q name rest :
  q = [] \/ (exists c, q = [c] /\ is_backtick_or_dquote c = true) ->
  name <> [] -> forallb is_name_char name = true ->
  match rest with [] => True | c :: _ => is_name_char c = false end ->
  match_after_keyword (lit " " ++ q ++ name ++ rest) = Some name.
Proof.
  intros Hq Hne Hname Hrest. unfold match_after_keyword.
  cbn [lit list_ascii_of_string app]. cbn [Ascii.eqb Bool.eqb].
  destruct Hq as [->|(c & -> & Hc)]; cbn [app].
  - destruct name as [|a name]; [done|]. cbn [app].
    assert (is_backtick_or_dquote a = false) as ->.
    { apply is_name_char_not_quote. simpl in Hname.
      by apply andb_true_iff in Hname as [? _]. }
    by apply (match_name_app (a :: name)).
  - rewrite Hc. by rewrite match_name_app.
Qed.

Lemma search_table_name_here s g :
  match_table_name_at s = Some g -> search_table_name s = Some g.
Proof.
  intros H. destruct s as [|c s]; [by vm_compute in H|].
  cbn [search_table_name]. by rewrite H.
Qed.

Lemma get_table_name_insert_line name rest :
  name <> [] -> forallb is_name_char name = true ->
  match rest with [] => True | c :: _ => is_name_char c = false end ->
  get_table_name (lit "INSERT INTO " ++ name ++ rest) = Some name.
Proof.
  intros Hne Hname Hrest. apply search_table_name_here.
  unfold match_table_name_at.
  change (startswith (lit "INSERT INTO " ++ name ++ rest) (lit "CREATE TABLE"))
    with false.
  change (startswith (lit "INSERT INTO " ++ name ++ rest) (lit "INSERT INTO"))
    with true.
  cbn [length lit list_ascii_of_string app skipn].
  change (" "%char :: name ++ rest) with (lit " " ++ [] ++ name ++ rest).
  by apply match_after_keyword_name; [left|..].
Qed.

(** X2.  On a statement that begins with [CREATE TABLE] or [INSERT INTO], a
    space, an optional backtick or double quote and a name, the name ending
    where the text ends or a character that is no name character stands,
    [get_table_name] returns that name. *)
Theorem get_table_name_of_statement kw q name rest :
  kw = lit "CREATE TABLE" \/ kw = lit "INSERT INTO" ->
  q = [] \/ (exists c, q = [c] /\ is_backtick_or_dquote c = true) ->
  name <> [] -> forallb is_name_char name = true ->
  match rest with [] => True | c :: _ => is_name_char c = false end ->
  get_table_name (kw ++ lit " " ++ q ++ name ++ rest) = Some name.
Proof.
  intros Hkw Hq Hne Hname Hrest.
  pose proof (match_after_keyword_name q name rest Hq Hne Hname Hrest) as H.
  unfold get_table_name.
  assert (match_table_name_at (kw ++ lit " " ++ q ++ name ++ rest)
          = Some name) as Hat.
  { unfold match_table_name_at.
    destruct Hkw as [->| ->].
    - change (startswith (lit "CREATE TABLE" ++ _) (lit "CREATE TABLE"))
        with true.
      cbn [length lit list_ascii_of_string app skipn].
      change (" "%char :: q ++ name ++ rest)
        with (lit " " ++ q ++ name ++ rest).
      by rewrite H.
    - change (startswith (lit "INSERT INTO" ++ _) (lit "CREATE TABLE"))
        with false.
      change (startswith (lit "INSERT INTO" ++ lit " " ++ q ++ name ++ rest)
                (lit "INSERT INTO")) with true.
      cbn [length lit list_ascii_of_string app skipn].
      change (" "%char :: q ++ name ++ rest)
        with (lit " " ++ q ++ name ++ rest).
      by rewrite H. }
  by apply search_table_name_here.
Qed.


Lemma get_table_name_of_statement_witness :
  get_table_name (lit "CREATE TABLE" ++ lit " " ++ lit "`" ++ lit "order_items"
                    ++ lit "` (")
  = Some (lit "order_items").
Proof.
  apply (get_table_name_of_statement (lit "CREATE TABLE") (lit "`")
           (lit "order_items") (lit "` (")).
  - by left.
  - right. by exists "`"%char.
  - discriminate.
  - reflexivity.
  - reflexivity.
Defined.

Lemma isspace_upper_char_eq c : isspace (upper_char c) = isspace c.
Proof. destruct c as [[] [] [] [] [] [] [] []]; by vm_compute. Qed.

Lemma upper_drop_while s :
  upper (drop_while isspace s) = drop_while isspace (upper s).
Proof.
  induction s as [|c s IH]; [done|]. simpl.
  rewrite isspace_upper_char_eq. by destruct (isspace c).
Qed.

Lemma upper_rev s : upper (rev s) = rev (upper s).
Proof. unfold upper. by rewrite map_rev. Qed.

Lemma upper_strip s : upper (strip s) = strip (upper s).
Proof.
  unfold strip, rstrip_by, lstrip_by.
  by rewrite upper_rev, upper_drop_while, upper_rev, upper_drop_while.
Qed.

Lemma drop_while_blank_prefix ws (s : list ascii) :
  blank ws = true -> drop_while isspace (ws ++ s) = drop_while isspace s.
Proof.
  unfold blank. induction ws as [|c ws IH]; simpl; [done|].
  intros [-> H]%andb_true_iff. by apply IH.
Qed.

Lemma blank_rev ws : blank ws = true -> blank (rev ws) = true.
Proof.
  unfold blank. rewrite !forallb_forall. intros H c Hc. apply H.
  by apply in_rev.
Qed.

Lemma rstrip_blank_suffix (s : list ascii) ws :
  blank ws = true -> rstrip_by isspace (s ++ ws) = rstrip_by isspace s.
Proof.
  intros H. unfold rstrip_by. rewrite rev_app_distr.
  by rewrite drop_while_blank_prefix by (by apply blank_rev).
Qed.

Lemma strip_blank_suffix (s : list ascii) ws :
  blank ws = true -> strip (s ++ ws) = strip s.
Proof.
  intros H. unfold strip, lstrip_by. induction s as [|c s IH].
  - simpl. by rewrite (drop_while_all isspace ws H).
  - simpl. destruct (isspace c); [done|].
    by apply (rstrip_blank_suffix (c :: s)).
Qed.

Lemma strip_surrounded ws1 (s : list ascii) ws2 :
  blank ws1 = true -> blank ws2 = true -> strip (ws1 ++ s ++ ws2) = strip s.
Proof.
  intros H1 H2. rewrite <- (strip_blank_suffix s ws2 H2).
  unfold strip, lstrip_by. by rewrite drop_while_blank_prefix.
Qed.

(** X3.  Whether a line begins a CREATE TABLE or an INSERT statement
    depends only on its text in upper case, and not on the whitespace
    around it; no line begins both. *)
Theorem statement_kind_ignores_case_and_margins :
  (forall s t, upper s = upper t ->
     is_create_table s = is_create_table t /\ is_insert s = is_insert t)
  /\ (forall ws1 s ws2, blank ws1 = true -> blank ws2 = true ->
        is_create_table (ws1 ++ s ++ ws2) = is_create_table s
        /\ is_insert (ws1 ++ s ++ ws2) = is_insert s)
  /\ (forall s, is_create_table s && is_insert s = false).
Proof.
  split; [|split].
  - intros s t H. unfold is_create_table, is_insert.
    by rewrite !upper_strip, H.
  - intros ws1 s ws2 H1 H2. unfold is_create_table, is_insert.
    by rewrite strip_surrounded.
  - intros s. destruct (is_insert s) eqn:E.
    + by rewrite (is_insert_not_create s E).
    + by rewrite andb_false_r.
Qed.

Lemma statement_kind_ignores_case_and_margins_witness :
  (is_create_table (lit "Create Table t (") = is_create_table (lit "CREATE TABLE T (")
   /\ is_insert (lit "Create Table t (") = is_insert (lit "CREATE TABLE T ("))
  /\ (is_create_table (lit "  " ++ lit "insert into t" ++ lit " ")
      = is_create_table (lit "insert into t")
      /\ is_insert (lit "  " ++ lit "insert into t" ++ lit " ")
         = is_insert (lit "insert into t")).
Proof.
  destruct statement_kind_ignores_case_and_margins as (H1 & H2 & _).
  split.
  - apply (H1 (lit "Create Table t (") (lit "CREATE TABLE T (")). reflexivity.
  - apply (H2 (lit "  ") (lit "insert into t") (lit " ")); reflexivity.
Defined.

(** ** The VALUES clause of a statement *)

Lemma startswith_take (p : list ascii) : forall s,
  startswith s p = true <-> take (length p) s = p.
Proof.
  induction p as [|a p IH]; intros s; simpl.
  - by rewrite take_0.
  - destruct s as [|c s]; simpl; [done|].
    rewrite andb_true_iff, IH. split.
    + intros [->%Ascii.eqb_eq ->]. done.
    + intros [= -> ->]. split; [apply Ascii.eqb_refl|done].
Qed.

Lemma startswith_app_self (p s : list ascii) : startswith (p ++ s) p = true.
Proof. apply startswith_take. by rewrite take_app_length. Qed.

Lemma startswith_longer (x p0 : list ascii) l rest :
  x <> [] ->
  startswith (x ++ p0) (p0 ++ [l]) = false ->
  startswith (x ++ (p0 ++ [l]) ++ rest) (p0 ++ [l]) = false.
Proof.
  intros Hx H. destruct (startswith (x ++ (p0 ++ [l]) ++ rest) _) eqn:E; [|done].
  apply startswith_take in E.
  replace (x ++ (p0 ++ [l]) ++ rest) with ((x ++ p0) ++ l :: rest) in E
    by (by rewrite <- !app_assoc).
  rewrite take_app_le in E.
  - apply startswith_take in E. congruence.
  - rewrite !length_app. cbn [length]. destruct x; [done|]. cbn [length]. lia.
Qed.

Lemma partition_from_absent (sep : list ascii) s : forall before,
  contains s sep = false ->
  partition_from s sep before = (before ++ s, [], []).
Proof.
  induction s as [|c s IH]; intros before H; simpl in *.
  - apply orb_false_iff in H as [-> _]. by rewrite app_nil_r.
  - apply orb_false_iff in H as [-> H]. rewrite IH by done.
    by rewrite <- app_assoc.
Qed.

Lemma partition_from_first (p0 : list ascii) l a : forall before b,
  contains (a ++ p0) (p0 ++ [l]) = false ->
  partition_from (a ++ (p0 ++ [l]) ++ b) (p0 ++ [l]) before
  = (before ++ a, p0 ++ [l], b).
Proof.
  induction a as [|c a IH]; intros before b H.
  - cbn [app]. destruct ((p0 ++ [l]) ++ b) as [|x u] eqn:E.
    { by destruct p0. }
    rewrite <- E. cbn [partition_from].
    assert (partition_from ((p0 ++ [l]) ++ b) (p0 ++ [l]) before
            = (before, p0 ++ [l], b)) as ->; [|by rewrite app_nil_r].
    rewrite E. cbn [partition_from]. rewrite <- E.
    by rewrite startswith_app_self, drop_app_length.
  - cbn [app contains] in H. apply orb_false_iff in H as [Hs H].
    cbn [app partition_from].
    change (c :: a ++ (p0 ++ [l]) ++ b) with ((c :: a) ++ (p0 ++ [l]) ++ b).
    rewrite (startswith_longer (c :: a) p0 l b) by done.
    rewrite IH by done. by rewrite <- app_assoc.
Qed.

Lemma get_values_first a b :
  contains (a ++ lit " VALUES") (lit " VALUES ") = false ->
  get_values (a ++ lit " VALUES " ++ b) = Some b.
Proof.
  intros H. unfold get_values, partition.
  change (lit " VALUES ") with (lit " VALUES" ++ [" "%char]).
  by rewrite partition_from_first.
Qed.

Lemma get_values_absent line :
  contains line (lit " VALUES ") = false -> get_values line = Some [].
Proof.
  intros H. unfold get_values, partition. by rewrite partition_from_absent.
Qed.

(** X4.  [get_values] returns the text after the first [ VALUES ] of the
    line, and the empty text when the line has no [ VALUES ] between two
    spaces and in upper case. *)
Theorem get_values_after_first_marker :
  (forall line, contains line (lit " VALUES ") = false ->
     get_values line = Some [])
  /\ (forall a b, contains (a ++ lit " VALUES") (lit " VALUES ") = false ->
        get_values (a ++ lit " VALUES " ++ b) = Some b).
Proof.
  split.
  - intros line H. unfold get_values, partition.
    by rewrite partition_from_absent.
  - intros a b H. unfold get_values, partition.
    change (lit " VALUES ") with (lit " VALUES" ++ [" "%char]).
    by rewrite partition_from_first.
Qed.

Lemma get_values_after_first_marker_witness :
  get_values (lit "INSERT INTO t values (1);") = Some []
  /\ get_values (lit "INSERT INTO t" ++ lit " VALUES "
                   ++ lit "(' VALUES ');")
     = Some (lit "(' VALUES ');").
Proof.
  destruct get_values_after_first_marker as [H1 H2]. split.
  - apply (H1 (lit "INSERT INTO t values (1);")). reflexivity.
  - apply (H2 (lit "INSERT INTO t") (lit "(' VALUES ');")). reflexivity.
Defined.

Lemma drop_while_split p (s : list ascii) :
  exists ws, forallb p ws = true /\ s = ws ++ drop_while p s.
Proof.
  induction s as [|c s (ws & Hws & IH)]; [by exists []|]. simpl.
  destruct (p c) eqn:E.
  - exists (c :: ws). simpl. rewrite E, Hws. by rewrite <- IH.
  - by exists [].
Qed.

(** X5.  [values_sanity_check] accepts exactly the texts whose first
    character that is not whitespace is an opening parenthesis. *)
Theorem values_sanity_check_iff values :
  values_sanity_check values = true
  <-> exists ws rest, blank ws = true /\ values = ws ++ lit "(" ++ rest.
Proof.
  unfold values_sanity_check. split.
  - destruct (nonempty values); [|done]. cbn [negb].
    destruct (startswith (strip values) (lit "(")) eqn:E; [|done]. intros _.
    destruct (drop_while_split isspace values) as (ws & Hws & Hv).
    pose proof (drop_while_head isspace values) as Hh.
    unfold strip, lstrip_by in E.
    destruct (drop_while isspace values) as [|c u]; [done|].
    rewrite rstrip_by_cons in E by done. simpl in E.
    rewrite andb_true_r in E. apply Ascii.eqb_eq in E. subst c.
    by exists ws, u.
  - intros (ws & rest & Hws & ->).
    assert (nonempty (ws ++ lit "(" ++ rest) = true) as -> by (by destruct ws).
    cbn [negb]. unfold strip, lstrip_by.
    rewrite drop_while_blank_prefix by done.
    change (drop_while isspace (lit "(" ++ rest)) with ("("%char :: rest).
    by rewrite rstrip_by_cons.
Qed.

Lemma values_sanity_check_iff_witness :
  values_sanity_check (lit "  " ++ lit "(" ++ lit "1,2);") = true.
Proof.
  apply (values_sanity_check_iff (lit "  " ++ lit "(" ++ lit "1,2);")).
  exists (lit "  "), (lit "1,2);"). split; reflexivity.
Defined.

(** ** Comments and parentheses in the schema extractor *)

Lemma In_sub_block_comments_from s : forall skip c,
  In c (sub_block_comments_from s skip) -> In c s.
Proof.
  induction s as [|a s IH]; intros skip c; [done|].
  cbn [sub_block_comments_from].
  destruct skip as [|k]; [|by right; eapply IH].
  destruct (block_comment_len (a :: s)) as [[|k]|].
  - intros [->|H]; [by left|by right; eapply IH].
  - intros H. right. by eapply IH.
  - intros [->|H]; [by left|by right; eapply IH].
Qed.

Lemma line_comment_rest_In s : forall r c,
  line_comment_rest s = Some r -> In c r -> In c s.
Proof.
  induction s as [|a s IH]; intros r c; simpl.
  - by intros [= <-].
  - destruct (is_newline a).
    + destruct s; [by intros [= <-]|done].
    + intros H Hc. right. by eapply IH.
Qed.

Lemma In_sub_line_comment s : forall c, In c (sub_line_comment s) -> In c s.
Proof.
  induction s as [|a s IH]; intros c; [done|].
  cbn [sub_line_comment].
  destruct (startswith (a :: s) (lit "--")) eqn:E.
  - destruct (line_comment_rest (drop 2 (a :: s))) as [r|] eqn:Er.
    + intros H. apply (line_comment_rest_In _ _ _ Er) in H.
      destruct s as [|b s]; [done|]. by right; right.
    + intros [->|H]; [by left|by right; apply IH].
  - intros [->|H]; [by left|by right; apply IH].
Qed.

Lemma not_In_not_contains (s : list ascii) c :
  ~ In c s -> contains s [c] = false.
Proof.
  intros H. destruct (contains s [c]) eqn:E; [|done].
  by apply contains_single_In in E.
Qed.

Lemma search_paren_group_none s :
  contains s (lit "(") = false \/ contains s (lit ")") = false ->
  search_paren_group s = None.
Proof.
  unfold search_paren_group. intros [H|H].
  - apply not_contains_single in H.
    rewrite <- (app_nil_r s).
    assert (drop_while (fun c => negb (is_lparen c)) (s ++ []) = []) as ->; [|done].
    rewrite app_nil_r. induction H as [|a s Ha _ IH]; [done|].
    simpl. unfold is_lparen. by rewrite Ha.
  - pose proof (drop_while_split (fun c => negb (is_lparen c)) s)
      as (ws & _ & Hs).
    destruct (drop_while (fun c => negb (is_lparen c)) s) as [|a r]; [done|].
    assert (contains r (lit ")") = false) as Hr.
    { apply not_In_not_contains. intros Hin.
      assert (In ")"%char s) as Hin'.
      { rewrite Hs. apply in_or_app. right. by right. }
      apply (contains_single_In s ")"%char) in Hin'. unfold lit in H. simpl in H.
      congruence. }
    apply not_contains_single in Hr. apply Forall_rev in Hr.
    assert (drop_while (fun c => negb (is_rparen c)) (rev r) = []) as ->; [|done].
    induction Hr as [|b u Hb _ IH]; [done|].
    simpl. unfold is_rparen. by rewrite Hb.
Qed.

(** X6.  On a text without an opening parenthesis, or without a closing
    one, [get_column_names] returns the empty list and raises nothing. *)
Theorem get_column_names_without_parentheses line :
  contains line (lit "(") = false \/ contains line (lit ")") = false ->
  get_column_names line = Ok [].
Proof.
  intros H. unfold get_column_names.
  rewrite search_paren_group_none; [done|].
  assert (forall c, contains line [c] = false ->
            contains (sub_line_comment (sub_block_comments line)) [c] = false)
    as Hkeep.
  { intros c Hc. apply not_In_not_contains.
    intros Hin%In_sub_line_comment%In_sub_block_comments_from.
    apply contains_single_In in Hin. congruence. }
  destruct H as [H|H]; [left|right]; by apply Hkeep.
Qed.

Lemma get_column_names_without_parentheses_witness :
  get_column_names (lit "CREATE TABLE t LIKE other;") = Ok [].
Proof.
  apply (get_column_names_without_parentheses
           (lit "CREATE TABLE t LIKE other;")).
  left. reflexivity.
Defined.

Lemma sub_block_comments_from_prefix a : forall rest,
  contains (a ++ lit "/") (lit "/*") = false ->
  sub_block_comments_from (a ++ lit "/*" ++ rest) 0
  = a ++ sub_block_comments_from (lit "/*" ++ rest) 0.
Proof.
  induction a as [|c a IH]; intros rest H; [done|].
  cbn [app contains] in H. apply orb_false_iff in H as [Hs H].
  cbn [app sub_block_comments_from].
  assert (block_comment_len (c :: a ++ lit "/*" ++ rest) = None) as ->.
  { unfold block_comment_len.
    assert (startswith (c :: a ++ lit "/*" ++ rest) (lit "/*") = false) as ->;
      [|done].
    by apply (startswith_longer (c :: a) (lit "/") "*"%char rest). }
  by rewrite IH.
Qed.

Lemma sub_block_comments_id s :
  contains s (lit "/*") = false -> sub_block_comments s = s.
Proof.
  unfold sub_block_comments. induction s as [|c s IH]; [done|].
  cbn [contains]. intros [Hs H]%orb_false_iff.
  cbn [sub_block_comments_from]. unfold block_comment_len. rewrite Hs.
  by rewrite IH.
Qed.

Lemma block_close_len_body body : forall rest,
  forallb (fun c => negb (is_newline c)) body = true ->
  contains (body ++ lit "*") (lit "*/") = false ->
  block_close_len (body ++ lit "*/" ++ rest) = Some (length body + 2).
Proof.
  induction body as [|c body IH]; intros rest Hnl H; [done|].
  cbn [forallb] in Hnl. apply andb_true_iff in Hnl as [Hc Hnl].
  apply negb_true_iff in Hc.
  cbn [app contains] in H. apply orb_false_iff in H as [Hs H].
  cbn [app block_close_len].
  assert (startswith (c :: body ++ lit "*/" ++ rest) (lit "*/") = false) as ->
    by (by apply (startswith_longer (c :: body) (lit "*") "/"%char rest)).
  rewrite Hc. rewrite IH by done. done.
Qed.

Lemma sub_block_comments_from_skip x : forall y,
  sub_block_comments_from (x ++ y) (length x) = sub_block_comments_from y 0.
Proof. induction x as [|c x IH]; intros y; [done|]. apply IH. Qed.

Lemma sub_line_comment_id s :
  contains s (lit "--") = false -> sub_line_comment s = s.
Proof.
  induction s as [|c s IH]; [done|].
  cbn [contains]. intros [Hs H]%orb_false_iff.
  cbn [sub_line_comment]. rewrite Hs. by rewrite IH.
Qed.

Lemma line_comment_rest_one_line b :
  forallb (fun c => negb (is_newline c)) b = true ->
  line_comment_rest b = Some [].
Proof.
  induction b as [|c b IH]; [done|]. cbn [forallb].
  intros [Hc Hb]%andb_true_iff. apply negb_true_iff in Hc.
  simpl. rewrite Hc. by apply IH.
Qed.

Lemma sub_line_comment_cut a : forall b,
  contains (a ++ lit "-") (lit "--") = false ->
  forallb (fun c => negb (is_newline c)) b = true ->
  sub_line_comment (a ++ lit "--" ++ b) = a.
Proof.
  induction a as [|c a IH]; intros b H Hb.
  - cbn [app lit list_ascii_of_string sub_line_comment].
    change (startswith ("-"%char :: "-"%char :: b) (lit "--")) with true.
    cbn [skipn]. rewrite drop_0.
    by rewrite line_comment_rest_one_line.
  - cbn [app contains] in H. apply orb_false_iff in H as [Hs H].
    cbn [app sub_line_comment].
    assert (startswith (c :: a ++ lit "--" ++ b) (lit "--") = false) as ->
      by (by apply (startswith_longer (c :: a) (lit "-") "-"%char b)).
    by rewrite IH.
Qed.

(** X7.  The two substitutions of [get_column_names] leave a text without
    the comment markers as it is; the first deletes a block comment that
    holds no line break, whatever else it holds; the second deletes
    everything from the first double dash of a one-line text. *)
Theorem comment_substitutions :
  (forall s, contains s (lit "/*") = false -> contains s (lit "--") = false ->
     sub_line_comment (sub_block_comments s) = s)
  /\ (forall a body b,
        contains (a ++ lit "/") (lit "/*") = false ->
        forallb (fun c => negb (is_newline c)) body = true ->
        contains (body ++ lit "*") (lit "*/") = false ->
        sub_block_comments (a ++ lit "/*" ++ body ++ lit "*/" ++ b)
        = a ++ sub_block_comments b)
  /\ (forall a b,
        contains (a ++ lit "-") (lit "--") = false ->
        forallb (fun c => negb (is_newline c)) b = true ->
        sub_line_comment (a ++ lit "--" ++ b) = a).
Proof.
  split; [|split].
  - intros s H1 H2. by rewrite sub_block_comments_id, sub_line_comment_id.
  - intros a body b Ha Hnl Hbody. unfold sub_block_comments.
    rewrite sub_block_comments_from_prefix by done. f_equal.
    cbn [app lit list_ascii_of_string sub_block_comments_from].
    unfold block_comment_len.
    change (startswith ("/"%char :: "*"%char :: body ++ "*"%char :: "/"%char :: b)
              (lit "/*")) with true.
    cbn [skipn]. rewrite drop_0.
    change (body ++ "*"%char :: "/"%char :: b) with (body ++ lit "*/" ++ b).
    rewrite block_close_len_body by done. cbn [option_map Nat.add].
    replace (length body + 2) with (length (body ++ lit "*/"))
      by (rewrite length_app; cbn [length lit list_ascii_of_string]; lia).
    replace (body ++ lit "*/" ++ b) with ((body ++ lit "*/") ++ b)
      by (by rewrite <- app_assoc).
    by rewrite sub_block_comments_from_skip.
  - exact sub_line_comment_cut.
Qed.

Lemma comment_substitutions_witness :
  sub_line_comment (sub_block_comments (lit "CREATE TABLE t (a INT);"))
  = lit "CREATE TABLE t (a INT);"
  /\ sub_block_comments (lit "(a INT, " ++ lit "/*" ++ lit " x, y (z " ++ lit "*/"
                           ++ lit " b INT)")
     = lit "(a INT, " ++ sub_block_comments (lit " b INT)")
  /\ sub_line_comment (lit "(a INT, " ++ lit "--" ++ lit " id b TEXT);")
     = lit "(a INT, ".
Proof.
  destruct comment_substitutions as (H1 & H2 & H3). split; [|split].
  - apply (H1 (lit "CREATE TABLE t (a INT);")); reflexivity.
  - apply (H2 (lit "(a INT, ") (lit " x, y (z ") (lit " b INT)")); reflexivity.
  - apply (H3 (lit "(a INT, ") (lit " id b TEXT);")); reflexivity.
Defined.

(** X8.  A double dash in a one-line statement cuts the statement there:
    when no closing parenthesis stands before it, and the statement holds
    no block comment marker, [get_column_names] returns the empty list,
    whatever columns follow the dashes. *)
Theorem get_column_names_after_dashes a b :
  contains (a ++ lit "--" ++ b) (lit "/*") = false ->
  contains (a ++ lit "-") (lit "--") = false ->
  forallb (fun c => negb (is_newline c)) b = true ->
  contains a (lit ")") = false ->
  get_column_names (a ++ lit "--" ++ b) = Ok [].
Proof.
  intros Hblock Hfirst Hb Ha. unfold get_column_names.
  rewrite sub_block_comments_id, sub_line_comment_cut by done.
  by rewrite search_paren_group_none by (by right).
Qed.

Lemma get_column_names_after_dashes_witness :
  get_column_names (lit "CREATE TABLE t ( id INT, " ++ lit "--"
                      ++ lit " key name TEXT );")
  = Ok [].
Proof.
  apply (get_column_names_after_dashes (lit "CREATE TABLE t ( id INT, ")
           (lit " key name TEXT );")); reflexivity.
Defined.

(** ** The names that the schema extractor returns *)

Lemma strip_by_idem p (s : list ascii) :
  rstrip_by p (lstrip_by p (rstrip_by p (lstrip_by p s)))
  = rstrip_by p (lstrip_by p s).
Proof.
  unfold lstrip_by. pose proof (drop_while_head p s) as H.
  destruct (drop_while p s) as [|c u]; [done|].
  rewrite rstrip_by_cons by done. simpl. rewrite H.
  by rewrite rstrip_by_cons, rstrip_by_idem.
Qed.

Lemma In_strip_chars (s cs : list ascii) c : In c (strip_chars s cs) -> In c s.
Proof.
  unfold strip_chars, rstrip_by, lstrip_by.
  intros H%in_rev%In_drop_while%in_rev. by apply In_drop_while in H.
Qed.

Lemma split_from_tokens s : forall cur,
  Forall (fun x => isspace x = false) cur ->
  Forall (fun t => Forall (fun x => isspace x = false) t) (split_from s cur).
Proof.
  induction s as [|c s IH]; intros cur Hcur; simpl.
  - destruct cur; [constructor | constructor; [done | constructor]].
  - destruct (isspace c) eqn:E.
    + destruct cur as [|x cur]; [by apply IH|].
      constructor; [done|by apply IH].
    + apply IH. apply Forall_app. split; [done|by constructor].
Qed.

Lemma column_names_sound parts : forall columns out,
  Forall sound_name columns ->
  column_names parts columns = Ok out -> Forall sound_name out.
Proof.
  induction parts as [|part parts IH]; intros columns out Hcols.
  - by intros [= <-].
  - cbn [column_names].
    pose proof (split_from_tokens (strip part) [] (List.Forall_nil _)) as Htok.
    fold (split (strip part)) in Htok.
    destruct (split (strip part)) as [|first toks]; [done|].
    inversion Htok as [|? ? Hfirst _]; subst.
    destruct (nonempty (strip_chars first name_quotes)) eqn:Hne;
      [|by apply IH].
    destruct (negb (has_constraint_keyword part)); [|by apply IH].
    cbn [andb]. apply IH. apply Forall_app. split; [done|].
    constructor; [|done]. repeat split.
    + by destruct (strip_chars first name_quotes).
    + apply List.Forall_forall. intros x Hx%In_strip_chars.
      rewrite List.Forall_forall in Hfirst. by apply Hfirst.
    + apply strip_by_idem.
Qed.

(** X9.  Every name that [get_column_names] returns is a non-empty run of
    characters without whitespace, with no backtick or double quote left at
    either end. *)
Theorem get_column_names_sound line cols :
  get_column_names line = Ok cols -> Forall sound_name cols.
Proof.
  unfold get_column_names.
  destruct (search_paren_group _) as [content|]; [|by intros [= <-]].
  destruct (split_parts content 0%Z [] []) as [parts current].
  by apply column_names_sound.
Qed.

Lemma get_column_names_sound_witness :
  Forall sound_name [lit "id"; lit "first"].
Proof.
  apply (get_column_names_sound
           (lit "CREATE TABLE `p` (`id` INT, `first name` TEXT, KEY (id));")).
  vm_compute. reflexivity.
Defined.

(** ** What the tokenizer does to its writer *)

Lemma parse_column_frame column r w :
  parse_column column r w
  = match parse_column column r [] with
    | Ok (r', out) => Ok (r', w ++ out)
    | Raise e => Raise e
    end.
Proof.
  unfold parse_column, writerow.
  destruct ((length column =? 0) || eqb column (lit "NULL"));
    [by rewrite app_nil_r|].
  destruct (startswith column (lit "(")); cbn [rbind];
    [destruct (last_field_closes r) as [[|]|e]; cbn [rbind length Nat.eqb];
       [|destruct (length r =? 0)|done]|];
    repeat match goal with
           | |- context [if ?b then _ else _] => destruct b
           end;
    cbn [app]; by rewrite ?app_nil_r, <- ?app_assoc.
Qed.

Lemma parse_columns_frame columns : forall r w,
  parse_columns columns r w
  = (w ++ (parse_columns columns r []).1, (parse_columns columns r []).2).
Proof.
  induction columns as [|column rest IH]; intros r w; cbn [parse_columns].
  - by rewrite app_nil_r.
  - rewrite (parse_column_frame column r w).
    destruct (parse_column column r []) as [[r' out]|e]; cbn [fst snd].
    + rewrite (IH r' (w ++ out)), (IH r' out). cbn [fst snd].
      by rewrite <- app_assoc.
    + by rewrite app_nil_r.
Qed.

Lemma flush_row_frame r w :
  flush_row r w = ((flush_row r []).1, w ++ (flush_row r []).2).
Proof.
  unfold flush_row, writerow. destruct (negb _); cbn [fst snd]; [done|].
  by rewrite app_nil_r.
Qed.

Lemma parse_rows_frame rows : forall r w,
  parse_rows rows r w
  = (w ++ (parse_rows rows r []).1, (parse_rows rows r []).2).
Proof.
  induction rows as [|row rest IH]; intros r w; cbn [parse_rows].
  - by rewrite app_nil_r.
  - rewrite (parse_columns_frame row r w).
    destruct (parse_columns row r []) as [out [r'|e]]; cbn [fst snd].
    + rewrite (flush_row_frame r' (w ++ out)), (flush_row_frame r' out).
      destruct (flush_row r' []) as [r'' out']. cbn [fst snd].
      rewrite (IH r'' ((w ++ out) ++ out')), (IH r'' (out ++ out')).
      cbn [fst snd]. by rewrite <- !app_assoc.
    + done.
Qed.

Lemma parse_values_extends values w :
  exists more, (parse_values values w).1 = w ++ more.
Proof.
  unfold parse_values. destruct (Csv.reader [strip values]) as [rows e].
  rewrite (parse_rows_frame rows [] w).
  destruct (parse_rows rows [] []) as [out [r|e']]; cbn [fst snd];
    [destruct e|]; by exists out.
Qed.

(** X10.  [parse_values] only appends to the writer: the records written
    before stay as they are, and what is appended, and whether an exception
    is raised, do not depend on them. *)
Theorem parse_values_appends values w :
  parse_values values w
  = (w ++ (parse_values values []).1, (parse_values values []).2).
Proof.
  unfold parse_values.
  destruct (Csv.reader [strip values]) as [rows e].
  rewrite (parse_rows_frame rows [] w).
  destruct (parse_rows rows [] []) as [out [r|e']]; cbn [fst snd]; [|done].
  by destruct e.
Qed.


(** ** A quote that is not closed *)

Lemma drop_while_app_keep p (l m : list ascii) c :
  p c = false -> drop_while p (l ++ c :: m) = drop_while p l ++ c :: m.
Proof.
  intros Hc. induction l as [|a l IH]; simpl.
  - by rewrite Hc.
  - by destruct (p a).
Qed.

Lemma rstrip_by_app_stop p (x y : list ascii) c :
  p c = false -> rstrip_by p (x ++ c :: y) = x ++ c :: rstrip_by p y.
Proof.
  intros Hc. unfold rstrip_by. rewrite rev_app_distr. cbn [rev].
  rewrite <- app_assoc. cbn [app]. rewrite drop_while_app_keep by done.
  rewrite rev_app_distr. cbn [rev]. rewrite rev_involutive.
  by rewrite <- app_assoc.
Qed.

Lemma in_quoted_field_body body : forall fs f,
  forallb (fun c => negb (Ascii.eqb c Csv.quotechar
                          || Ascii.eqb c Csv.escapechar)) body = true ->
  Csv.process_chars (Csv.mkReader Csv.IN_QUOTED_FIELD fs f) body
  = Ok (Csv.mkReader Csv.IN_QUOTED_FIELD fs (f ++ body)).
Proof.
  induction body as [|c body IH]; intros fs f H.
  - by rewrite app_nil_r.
  - cbn [forallb] in H. apply andb_true_iff in H as [Hc H].
    apply negb_true_iff, orb_false_iff in Hc as [Hq He].
    rewrite process_chars_cons. unfold Csv.parse_process_char.
    cbn [Csv.state]. rewrite He, Hq. cbn [rbind]. unfold Csv.add_char.
    cbn [Csv.state Csv.fields Csv.field]. rewrite IH by done.
    by rewrite <- app_assoc.
Qed.

Lemma reader_open_quote c0 h body :
  Forall plain (c0 :: h) ->
  forallb (fun c => negb (Ascii.eqb c Csv.quotechar
                          || Ascii.eqb c Csv.escapechar)) body = true ->
  Csv.reader [c0 :: h ++ lit ",'" ++ body] = ([], Some CsvError).
Proof.
  intros Hh Hbody. inversion Hh as [|? ? Hc0 Hh']; subst.
  unfold Csv.reader. cbn [Csv.reader_from].
  rewrite start_record_plain by done.
  rewrite in_field_plain by done.
  cbn [lit list_ascii_of_string app].
  change (","%char :: "'"%char :: body) with (Csv.delimiter :: "'"%char :: body).
  rewrite in_field_delimiter, process_chars_cons.
  change (Csv.parse_process_char
            (Csv.mkReader Csv.START_FIELD ([] ++ [c0 :: h]) [])
            (Csv.Chr "'"))
    with (Ok (Csv.mkReader Csv.IN_QUOTED_FIELD ([] ++ [c0 :: h]) [])).
  cbn [rbind]. rewrite in_quoted_field_body by done.
  cbn [Csv.state Csv.field Csv.is_start_record Csv.is_in_quoted_field].
  by rewrite orb_true_r.
Qed.

(** X11.  A VALUES clause in which a quote opens a field and is not closed
    makes [parse_values] raise the error of the reader, and nothing is
    written: the text up to the quote is unquoted, and no quote or
    backslash follows the quote. *)
Theorem parse_values_open_quote c0 h body w :
  isspace c0 = false -> Forall plain (c0 :: h) ->
  forallb (fun c => negb (Ascii.eqb c Csv.quotechar
                          || Ascii.eqb c Csv.escapechar)) body = true ->
  parse_values (c0 :: h ++ lit ",'" ++ body) w = (w, Raise CsvError).
Proof.
  intros Hc0 Hh Hbody. unfold parse_values.
  rewrite strip_nonspace_head by done.
  change (h ++ lit ",'" ++ body) with (h ++ ","%char :: "'"%char :: body).
  replace (h ++ ","%char :: "'"%char :: body)
    with ((h ++ [","%char]) ++ "'"%char :: body) by (by rewrite <- app_assoc).
  rewrite rstrip_by_app_stop by done. rewrite <- app_assoc.
  change (c0 :: h ++ [","%char] ++ "'"%char :: rstrip_by isspace body)
    with (c0 :: h ++ lit ",'" ++ rstrip_by isspace body).
  rewrite reader_open_quote; [done|done|].
  apply forallb_forall. intros c Hc. rewrite forallb_forall in Hbody.
  apply Hbody. unfold rstrip_by in Hc. by apply in_rev, In_drop_while, in_rev in Hc.
Qed.

Lemma parse_values_open_quote_witness :
  parse_values (lit "(1,'it is, unclosed);") [[lit "id"; lit "s"]]
  = ([[lit "id"; lit "s"]], Raise CsvError).
Proof.
  apply (parse_values_open_quote "("%char (lit "1") (lit "it is, unclosed);")
           [[lit "id"; lit "s"]]).
  - reflexivity.
  - repeat constructor.
  - reflexivity.
Defined.

(** ** The reader on unquoted fields, empty ones among them *)

Lemma join_commas_cons f g (fields : list (list ascii)) :
  join_commas (f :: g :: fields) = f ++ lit "," ++ join_commas (g :: fields).
Proof. done. Qed.

Lemma start_field_any_fields fields : forall f fs,
  Forall plain f -> Forall (Forall plain) fields ->
  Csv.process_chars (Csv.mkReader Csv.START_FIELD fs [])
    (join_commas (f :: fields))
  = Ok (Csv.mkReader Csv.START_RECORD (fs ++ f :: fields) []).
Proof.
  induction fields as [|g fields IH]; intros f fs Hf Hall.
  - cbn [join_commas]. destruct f as [|c f]; [done|].
    inversion Hf as [|? ? Hc Hf']; subst.
    rewrite start_field_plain by done. rewrite <- (app_nil_r f) at 1.
    rewrite in_field_plain by done. by rewrite in_field_end.
  - inversion Hall as [|? ? Hg Hrest]; subst.
    rewrite join_commas_cons. destruct f as [|c f].
    + cbn [app lit list_ascii_of_string]. rewrite process_chars_cons.
      change (Csv.parse_process_char (Csv.mkReader Csv.START_FIELD fs [])
                (Csv.Chr ","))
        with (Ok (Csv.mkReader Csv.START_FIELD (fs ++ [[]]) [])).
      cbn [rbind]. rewrite IH by done. by rewrite <- app_assoc.
    + inversion Hf as [|? ? Hc Hf']; subst. cbn [app].
      rewrite start_field_plain, in_field_plain by done.
      change (lit "," ++ join_commas (g :: fields))
        with (Csv.delimiter :: join_commas (g :: fields)).
      rewrite in_field_delimiter, IH by done. by rewrite <- app_assoc.
Qed.

(** A line of unquoted fields, the first one not empty, gives one record
    of these fields. *)
Lemma reader_any_fields c f fields :
  Forall plain (c :: f) -> Forall (Forall plain) fields ->
  Csv.reader [join_commas ((c :: f) :: fields)]
  = ([(c :: f) :: fields], None).
Proof.
  intros Hf Hall. unfold Csv.reader. cbn [Csv.reader_from].
  assert (Csv.process_chars Csv.reset (join_commas ((c :: f) :: fields))
          = Csv.process_chars (Csv.mkReader Csv.START_FIELD [] [])
              (join_commas ((c :: f) :: fields))) as ->.
  { assert (join_commas ((c :: f) :: fields)
            = c :: join_commas (f :: fields)) as -> by (by destruct fields).
    inversion Hf as [|? ? Hc Hf']; subst.
    by rewrite start_record_plain, start_field_plain. }
  by rewrite start_field_any_fields.
Qed.

(** ** The tokenizer on any number of tuples of unquoted scalars *)

Lemma close_last_snoc (inner : list (list ascii)) l suffix :
  close_last (inner ++ [l]) suffix = inner ++ [l ++ suffix].
Proof.
  induction inner as [|m inner IH]; [done|].
  cbn [app close_last]. rewrite IH. by destruct inner.
Qed.

Lemma decode_rest_snoc (inner : list (list ascii)) l :
  decode_rest (inner ++ [l]) = map decode_inner inner ++ [l].
Proof.
  induction inner as [|m inner IH]; [done|].
  cbn [app decode_rest map]. rewrite IH. by destruct inner.
Qed.

Lemma join_commas_snoc (fs : list (list ascii)) l :
  fs <> [] -> join_commas (fs ++ [l]) = join_commas fs ++ lit "," ++ l.
Proof.
  induction fs as [|f fs IH]; [done|]. intros _.
  destruct fs as [|g fs]; [done|].
  change (join_commas ((f :: g :: fs) ++ [l]))
    with (f ++ lit "," ++ join_commas ((g :: fs) ++ [l])).
  rewrite IH by done. rewrite join_commas_cons. by rewrite <- !app_assoc.
Qed.

Lemma join_commas_app (l1 l2 : list (list ascii)) :
  l1 <> [] -> l2 <> [] ->
  join_commas (l1 ++ l2) = join_commas l1 ++ lit "," ++ join_commas l2.
Proof.
  intros H1 H2. induction l1 as [|f l1 IH]; [done|].
  destruct l1 as [|g l1].
  - destruct l2; [done|]. done.
  - change (join_commas ((f :: g :: l1) ++ l2))
      with (f ++ lit "," ++ join_commas ((g :: l1) ++ l2)).
    rewrite IH by done. rewrite join_commas_cons. by rewrite <- !app_assoc.
Qed.

Lemma join_commas_close_last (fs : list (list ascii)) suffix :
  fs <> [] -> join_commas (close_last fs suffix) = join_commas fs ++ suffix.
Proof.
  intros Hne. destruct (exists_last Hne) as (inner & l & ->).
  rewrite close_last_snoc. destruct inner as [|m inner]; [done|].
  rewrite !join_commas_snoc by done. by rewrite <- !app_assoc.
Qed.

Lemma join_commas_tuple_fields (t : list (list ascii)) suffix :
  t <> [] ->
  join_commas (tuple_fields t suffix) = lit "(" ++ join_commas t ++ suffix.
Proof.
  intros Hne. unfold tuple_fields. destruct t as [|f fs]; [done|].
  rewrite join_commas_close_last by done. cbn [open_first].
  destruct fs as [|g fs].
  - cbn [join_commas]. by rewrite <- !app_assoc.
  - rewrite !join_commas_cons. by rewrite <- !app_assoc.
Qed.

Lemma tuple_fields_nonempty (t : list (list ascii)) suffix :
  t <> [] -> tuple_fields t suffix <> [].
Proof.
  intros Hne. destruct t as [|f [|g fs]]; [done|done|]. unfold tuple_fields.
  cbn [open_first close_last]. done.
Qed.

Lemma clause_fields_nonempty ts : forall t,
  t <> [] -> clause_fields t ts <> [].
Proof.
  destruct ts as [|t' ts]; intros t Hne; cbn [clause_fields].
  - by apply tuple_fields_nonempty.
  - pose proof (tuple_fields_nonempty t (lit ")") Hne) as H.
    by destruct (tuple_fields t (lit ")")).
Qed.

Lemma join_commas_clause_fields ts : forall t,
  Forall (fun t => t <> []) (t :: ts) ->
  join_commas (clause_fields t ts) = values_text (t :: ts).
Proof.
  induction ts as [|t' ts IH]; intros t Hall;
    inversion Hall as [|? ? Ht Hrest]; subst.
  - cbn [clause_fields]. rewrite join_commas_tuple_fields by done.
    unfold values_text, tuple_text. cbn [map join_commas].
    by rewrite <- !app_assoc.
  - cbn [clause_fields].
    assert (t' <> []) as Ht' by (by inversion Hrest).
    rewrite join_commas_app
      by (by apply tuple_fields_nonempty || by apply clause_fields_nonempty).
    rewrite join_commas_tuple_fields, IH by done.
    unfold values_text. cbn [map]. rewrite join_commas_cons.
    unfold tuple_text. by rewrite <- !app_assoc.
Qed.

Lemma plain_suffix_close : Forall plain (lit ")").
Proof. repeat constructor. Qed.

Lemma plain_suffix_end : Forall plain (lit ");").
Proof. repeat constructor. Qed.

Lemma tuple_fields_plain (t : list (list ascii)) suffix :
  Forall (fun f => scalar f = true) t -> Forall plain suffix ->
  Forall (Forall plain) (tuple_fields t suffix).
Proof.
  intros Ht Hs. unfold tuple_fields.
  assert (Forall (Forall plain) (open_first t)) as Ho.
  { destruct Ht as [|f fs Hf Hfs]; [constructor|]. cbn [open_first].
    constructor.
    - constructor; [apply plain_lparen|by apply scalar_plain].
    - eapply Forall_impl; [exact Hfs|]. intros g Hg. by apply scalar_plain. }
  induction Ho as [|g gs Hg Hgs IH]; [constructor|].
  cbn [close_last]. destruct gs as [|g' gs].
  - constructor; [|constructor]. apply Forall_app. by split.
  - constructor; [done|]. by apply IH.
Qed.

Lemma clause_fields_plain ts : forall t,
  Forall (fun t => Forall (fun f => scalar f = true) t) (t :: ts) ->
  Forall (Forall plain) (clause_fields t ts).
Proof.
  induction ts as [|t' ts IH]; intros t Hall;
    inversion Hall as [|? ? Ht Hrest]; subst; cbn [clause_fields].
  - apply tuple_fields_plain; [done|apply plain_suffix_end].
  - apply Forall_app. split; [|by apply IH].
    apply tuple_fields_plain; [done|apply plain_suffix_close].
Qed.

Lemma clause_fields_head ts t :
  t <> [] -> exists f fields, clause_fields t ts = ("("%char :: f) :: fields.
Proof.
  intros Hne. destruct t as [|f0 fs]; [done|].
  assert (forall suffix, exists f fields,
            tuple_fields (f0 :: fs) suffix = ("("%char :: f) :: fields) as H.
  { intros suffix. unfold tuple_fields. cbn [open_first close_last].
    destruct fs; by eexists _, _. }
  destruct ts as [|t' ts]; cbn [clause_fields].
  - apply H.
  - destruct (H (lit ")")) as (f & fields & ->). by eexists _, _.
Qed.

(** The fields between the first and the last one of a tuple. *)
Lemma parse_columns_inner inner : forall rest (r : list (list ascii)) w,
  Forall (fun f => scalar f = true) inner ->
  parse_columns (inner ++ rest) r w
  = parse_columns rest (r ++ map decode_inner inner) w.
Proof.
  induction inner as [|m inner IH]; intros rest r w Hall.
  - by rewrite app_nil_r.
  - inversion Hall as [|? ? Hm Hrest]; subst.
    cbn [app parse_columns map].
    assert (parse_column m r w = Ok (r ++ [decode_inner m], w)) as ->.
    { unfold decode_inner.
      destruct ((length m =? 0) || eqb m (lit "NULL")) eqn:E.
      - unfold parse_column. by rewrite E.
      - apply orb_false_iff in E as [El En].
        apply parse_column_inner.
        + by destruct m.
        + intros ->. done.
        + rewrite <- (app_nil_r m). by apply scalar_startswith_lparen.
        + by apply scalar_endswith_close.
        + by apply scalar_endswith_close. }
    rewrite IH by done. by rewrite <- app_assoc.
Qed.

Lemma last_field_closes_pending prev :
  (forall d, prev = Some d -> d <> []) ->
  last_field_closes (pending prev) = Ok (match prev with None => false | Some _ => true end).
Proof.
  intros H. destruct prev as [d|]; [|done]. unfold pending.
  apply last_field_closes_snoc.
Qed.

(** A field that opens a tuple: the row that is pending is written. *)
Lemma parse_column_open f prev w :
  (forall d, prev = Some d -> d <> []) ->
  endswith f (lit ");") = false -> endswith f (lit "),") = false ->
  parse_column ("("%char :: f) (pending prev) w
  = Ok ([f], w ++ unwritten prev).
Proof.
  intros Hprev H1 H2. destruct prev as [d|].
  - unfold pending. rewrite parse_column_open_next by done.
    unfold writerow, unwritten.
    by rewrite <- (app_removelast_last [] (Hprev d eq_refl)).
  - cbn [pending unwritten]. rewrite parse_column_open_first by done.
    by rewrite app_nil_r.
Qed.

Lemma endswith_snoc_rparen (f : list ascii) :
  endswith (f ++ lit ")") (lit ");") = false
  /\ endswith (f ++ lit ")") (lit "),") = false.
Proof. unfold endswith. by rewrite rev_app_distr. Qed.

Lemma pending_some (d : list (list ascii)) l :
  pending (Some (d ++ [l])) = d ++ [l ++ lit ")"].
Proof. unfold pending. by rewrite removelast_last, last_last. Qed.

(** A tuple that another one follows. *)
Lemma parse_columns_tuple t prev rest w :
  (forall d, prev = Some d -> d <> []) ->
  t <> [] -> Forall (fun f => scalar f = true) t ->
  parse_columns (tuple_fields t (lit ")") ++ rest) (pending prev) w
  = parse_columns rest (pending (Some (decode_tuple t))) (w ++ unwritten prev).
Proof.
  intros Hprev Hne Hall. destruct t as [|f fs]; [done|].
  inversion Hall as [|? ? Hf Hfs]; subst.
  unfold tuple_fields. cbn [open_first decode_tuple].
  destruct fs as [|g fs'].
  - cbn [close_last app parse_columns decode_rest].
    change ((lit "(" ++ f) ++ lit ")") with ("("%char :: f ++ lit ")").
    destruct (endswith_snoc_rparen f) as [H1 H2].
    by rewrite parse_column_open by done.
  - destruct (exists_last (l := g :: fs') ltac:(done)) as (inner & l & Hfs').
    rewrite Hfs' in *.
    assert (close_last ((lit "(" ++ f) :: inner ++ [l]) (lit ")")
            = ("("%char :: f) :: inner ++ [l ++ lit ")"]) as ->.
    { rewrite (close_last_snoc ((lit "(" ++ f) :: inner) l). done. }
    cbn [app parse_columns].
    rewrite parse_column_open by (by apply scalar_endswith_close || done).
    apply Forall_app in Hfs as [Hinner Hl]. inversion Hl as [|? ? Hl' _]; subst.
    rewrite <- app_assoc, parse_columns_inner by done.
    cbn [app parse_columns].
    destruct (endswith_snoc_rparen l) as [H1 H2].
    rewrite parse_column_inner; [| | | |done|done].
    + rewrite decode_rest_snoc.
      change (f :: map decode_inner inner ++ [l])
        with ((f :: map decode_inner inner) ++ [l]).
      by rewrite pending_some.
    + by destruct l.
    + intros H%(f_equal (@rev ascii)). by rewrite rev_app_distr in H.
    + by apply scalar_startswith_lparen.
Qed.

Lemma parse_column_close_open f prev w :
  (forall d, prev = Some d -> d <> []) ->
  scalar f = true ->
  parse_column ("("%char :: f ++ lit ");") (pending prev) w
  = Ok ([], (w ++ unwritten prev) ++ [[f]]).
Proof.
  intros Hprev Hf. unfold parse_column.
  change (eqb ("("%char :: f ++ lit ");") (lit "NULL")) with false.
  change (startswith ("("%char :: f ++ lit ");") (lit "(")) with true.
  cbn [length Nat.eqb orb].
  rewrite last_field_closes_pending by done. cbn [rbind].
  assert (endswith (f ++ lit ");") (lit ");") = true) as Hend.
  { unfold endswith. by rewrite rev_app_distr. }
  destruct prev as [d|]; cbn [length Nat.eqb skipn unwritten pending].
  - rewrite drop_0. cbn [rbind]. rewrite Hend. cbn [orb].
    rewrite rstrip_chars_scalar by done.
    unfold writerow. change (lit ")") with [")"%char].
    rewrite strip_last_paren_snoc.
    by rewrite <- (app_removelast_last [] (Hprev d eq_refl)).
  - rewrite drop_0. cbn [rbind]. rewrite Hend. cbn [orb].
    rewrite rstrip_chars_scalar by done.
    unfold writerow. by rewrite app_nil_r.
Qed.

(** The last tuple, which the semicolon follows. *)
Lemma parse_columns_last_tuple t prev w :
  (forall d, prev = Some d -> d <> []) ->
  t <> [] -> Forall (fun f => scalar f = true) t ->
  parse_columns (tuple_fields t (lit ");")) (pending prev) w
  = ((w ++ unwritten prev) ++ [decode_tuple t], Ok []).
Proof.
  intros Hprev Hne Hall. destruct t as [|f fs]; [done|].
  inversion Hall as [|? ? Hf Hfs]; subst.
  unfold tuple_fields. cbn [open_first decode_tuple].
  destruct fs as [|g fs'].
  - cbn [close_last app parse_columns decode_rest].
    change ((lit "(" ++ f) ++ lit ");") with ("("%char :: f ++ lit ");").
    by rewrite parse_column_close_open.
  - destruct (exists_last (l := g :: fs') ltac:(done)) as (inner & l & Hfs').
    rewrite Hfs' in *.
    assert (close_last ((lit "(" ++ f) :: inner ++ [l]) (lit ");")
            = ("("%char :: f) :: inner ++ [l ++ lit ");"]) as ->.
    { rewrite (close_last_snoc ((lit "(" ++ f) :: inner) l). done. }
    cbn [app parse_columns].
    rewrite parse_column_open by (by apply scalar_endswith_close || done).
    apply Forall_app in Hfs as [Hinner Hl]. inversion Hl as [|? ? Hl' _]; subst.
    rewrite parse_columns_inner by done.
    cbn [parse_columns]. rewrite parse_column_close by done.
    unfold writerow. by rewrite decode_rest_snoc.
Qed.

Lemma decode_tuple_nonempty t : t <> [] -> decode_tuple t <> [].
Proof. by destruct t. Qed.

Lemma parse_columns_clause ts : forall t prev w,
  (forall d, prev = Some d -> d <> []) ->
  Forall (fun t => t <> [] /\ Forall (fun f => scalar f = true) t) (t :: ts) ->
  parse_columns (clause_fields t ts) (pending prev) w
  = ((w ++ unwritten prev) ++ map decode_tuple (t :: ts), Ok []).
Proof.
  induction ts as [|t' ts IH]; intros t prev w Hprev Hall;
    inversion Hall as [|? ? [Hne Ht] Hrest]; subst; cbn [clause_fields].
  - by apply parse_columns_last_tuple.
  - rewrite parse_columns_tuple by done.
    rewrite IH; [|intros d [= <-]; by apply decode_tuple_nonempty|done].
    cbn [unwritten map]. by rewrite <- !app_assoc.
Qed.

Lemma values_text_bracketed t ts :
  exists s, values_text (t :: ts) = "("%char :: s ++ lit ";".
Proof.
  unfold values_text, tuple_text. cbn [map].
  destruct ts as [|t' ts]; by eexists.
Qed.

Lemma strip_values_text t ts :
  strip (values_text (t :: ts)) = values_text (t :: ts).
Proof.
  destruct (values_text_bracketed t ts) as (s & ->). apply strip_bracketed.
Qed.

Lemma reader_clause t ts :
  Forall (fun t => t <> [] /\ Forall (fun f => scalar f = true) t) (t :: ts) ->
  Csv.reader [values_text (t :: ts)] = ([clause_fields t ts], None).
Proof.
  intros Hall.
  assert (Forall (fun t => t <> []) (t :: ts)) as Hne.
  { eapply Forall_impl; [exact Hall|]. by intros ? [? _]. }
  assert (Forall (fun t => Forall (fun f => scalar f = true) t) (t :: ts))
    as Hsc.
  { eapply Forall_impl; [exact Hall|]. by intros ? [_ ?]. }
  rewrite <- join_commas_clause_fields by done.
  pose proof (clause_fields_plain ts t Hsc) as Hplain.
  destruct (clause_fields_head ts t) as (f & fields & Hhead);
    [by inversion Hne|].
  rewrite Hhead in Hplain. inversion Hplain as [|? ? Hf Hfields]; subst.
  by rewrite Hhead, reader_any_fields.
Qed.

(** X12.  On a VALUES clause of any number of tuples of unquoted scalars,
    each tuple with at least one field, the tokenizer writes one row for
    each tuple, in order, and ends with no pending row.  In a row the first
    and the last field of the tuple are kept as they are; a field between
    them is kept too, unless it is empty or NULL, which gives the empty
    string. *)
Theorem parse_values_tuples t ts w :
  Forall (fun t => t <> [] /\ Forall (fun f => scalar f = true) t) (t :: ts) ->
  parse_values (values_text (t :: ts)) w
  = (w ++ map decode_tuple (t :: ts), Ok []).
Proof.
  intros Hall. unfold parse_values.
  rewrite strip_values_text, reader_clause by done.
  cbn [parse_rows].
  change (parse_columns (clause_fields t ts) [] w)
    with (parse_columns (clause_fields t ts) (pending None) w).
  rewrite (parse_columns_clause ts t None w) by done.
  cbn [unwritten flush_row length Nat.eqb negb parse_rows].
  by rewrite app_nil_r.
Qed.


Lemma parse_values_tuples_witness :
  parse_values (lit "(1,NULL,,x),(NULL),(2,3);") [[lit "h"]]
  = ([[lit "h"]; [lit "1"; []; []; lit "x"]; [lit "NULL"]; [lit "2"; lit "3"]],
     Ok []).
Proof.
  apply (parse_values_tuples [lit "1"; lit "NULL"; []; lit "x"]
           [[lit "NULL"]; [lit "2"; lit "3"]] [[lit "h"]]).
  repeat constructor; discriminate.
Defined.



(** ** Runs of the driver *)

(** X14.  The lines that the loop passes over, the empty ones and those
    that begin with two dashes or with a slash and a star once stripped,
    can be taken out of the dump: the run ends in the same state and with
    the same outcome. *)
Theorem run_without_skipped_lines lines : forall st,
  run st lines
  = run st (List.filter (fun raw => negb (skipped (strip raw))) lines).
Proof.
  induction lines as [|raw lines IH]; intros st; [done|].
  cbn [List.filter]. destruct (skipped (strip raw)) eqn:Hs; cbn [negb].
  - cbn [run]. unfold step. rewrite Hs. apply IH.
  - cbn [run]. destruct (step st raw) as [st' [[]|e]]; [apply IH|done].
Qed.

Lemma run_raise l1 : forall st st' e l2,
  run st l1 = (st', Raise e) -> run st (l1 ++ l2) = (st', Raise e).
Proof.
  induction l1 as [|raw l1 IH]; intros st st' e l2; [done|].
  cbn [app run]. destruct (step st raw) as [st1 [[]|e1]]; [apply IH|done].
Qed.

(** X15.  When a run over some lines ends in an exception, the lines that
    follow are not read: the longer run ends in the same state with the
    same exception, and [main] exits with status 1 in that state. *)
Theorem run_stops_at_exception l1 l2 st st' e :
  run st l1 = (st', Raise e) ->
  run st (l1 ++ l2) = (st', Raise e)
  /\ (st = initial -> main (l1 ++ l2) = (st', 1%Z)).
Proof.
  intros H. pose proof (run_raise l1 st st' e l2 H) as H'.
  split; [done|]. intros ->. unfold main. by rewrite H'.
Qed.

Lemma run_stops_at_exception_witness :
  run initial ([lit "CREATE TABLE t ("; lit "a INT,"; lit ");"]
                 ++ [lit "CREATE TABLE u ("; lit "b INT"; lit ");"])
  = (set_create_statement initial (lit "CREATE TABLE t ( a INT, );"),
     Raise IndexError)
  /\ (initial = initial ->
      main ([lit "CREATE TABLE t ("; lit "a INT,"; lit ");"]
              ++ [lit "CREATE TABLE u ("; lit "b INT"; lit ");"])
      = (set_create_statement initial (lit "CREATE TABLE t ( a INT, );"), 1%Z)).
Proof.
  apply (run_stops_at_exception
           [lit "CREATE TABLE t ("; lit "a INT,"; lit ");"]
           [lit "CREATE TABLE u ("; lit "b INT"; lit ");"] initial).
  vm_compute. reflexivity.
Defined.

(** ** What a run keeps *)

Lemma sinks_extend_refl fs : sinks_extend fs fs.
Proof.
  intros h s H. exists s. split; [done|]. split; [done|].
  exists []. by rewrite app_nil_r.
Qed.

Lemma sinks_extend_trans fs1 fs2 fs3 :
  sinks_extend fs1 fs2 -> sinks_extend fs2 fs3 -> sinks_extend fs1 fs3.
Proof.
  intros H12 H23 h s H.
  destruct (H12 h s H) as (s2 & H2 & Hp2 & more2 & Hr2).
  destruct (H23 h s2 H2) as (s3 & H3 & Hp3 & more3 & Hr3).
  exists s3. split; [done|]. split; [congruence|].
  exists (more2 ++ more3). by rewrite Hr3, Hr2, <- app_assoc.
Qed.

Lemma sinks_extend_app fs new : sinks_extend fs (fs ++ new).
Proof.
  intros h s H. exists s. split; [by apply lookup_app_l_Some|].
  split; [done|]. exists []. by rewrite app_nil_r.
Qed.

Lemma sinks_extend_write_values fs h values :
  sinks_extend fs (write_values fs h values).1.
Proof.
  unfold write_values. destruct (fs !! h) as [s|] eqn:Hh;
    [|apply sinks_extend_refl].
  destruct (parse_values_extends values (records s)) as (more & Hmore).
  destruct (parse_values values (records s)) as [w r]. cbn [fst] in *.
  intros h' s' H'. destruct (decide (h = h')) as [<-|Hne].
  - rewrite list_lookup_insert_eq by (by eapply lookup_lt_Some).
    assert (s' = s) as -> by congruence.
    eexists. split; [done|]. split; [done|]. by exists more.
  - rewrite list_lookup_insert_ne by done. by apply sinks_extend_refl.
Qed.

Lemma sinks_extend_process_insert st line :
  sinks_extend (files st) (files (process_insert st line).1).
Proof.
  unfold process_insert.
  destruct (_ && _); [|apply sinks_extend_refl].
  destruct (get_values (current_insert st)) as [values|];
    [|apply sinks_extend_refl].
  destruct (current_table st) as [td|]; [|apply sinks_extend_refl].
  destruct (_ && _); [|apply sinks_extend_refl].
  pose proof (sinks_extend_write_values (files st) (output_file td) values) as H.
  by destruct (write_values _ _ _) as [fs [[]|e]].
Qed.

Lemma sinks_extend_continue_create st line :
  sinks_extend (files st) (files (continue_create st line).1).
Proof.
  unfold continue_create.
  destruct (nonempty (create_statement st)); [|apply sinks_extend_refl].
  destruct (endswith line (lit ";")); [|apply sinks_extend_refl].
  unfold complete_create.
  destruct (get_table_name _) as [n|]; [|apply sinks_extend_refl].
  destruct (get_column_names _) as [[|h hs]|e]; try apply sinks_extend_refl.
  apply sinks_extend_app.
Qed.

Lemma sinks_extend_step st raw :
  sinks_extend (files st) (files (step st raw).1).
Proof.
  unfold step.
  destruct (skipped (strip raw)); [apply sinks_extend_refl|].
  destruct (is_create_table (strip raw)); [apply sinks_extend_refl|].
  pose proof (sinks_extend_continue_create st (strip raw)) as H1.
  destruct (continue_create st (strip raw)) as [st1 [[]|e]]; [|done].
  cbn [fst] in *. eapply sinks_extend_trans; [exact H1|].
  pose proof (sinks_extend_process_insert (handle_insert st1 (strip raw))
                (strip raw)) as H2.
  by destruct (handle_insert_frame st1 (strip raw)) as (_ & <- & _).
Qed.

Lemma tables_kept_step st raw n :
  is_Some (tables st !! n) -> is_Some (tables (step st raw).1 !! n).
Proof.
  intros Hn. unfold step.
  destruct (skipped (strip raw)); [done|].
  destruct (is_create_table (strip raw)); [done|].
  assert (is_Some (tables (continue_create st (strip raw)).1 !! n)) as H1.
  { unfold continue_create.
    destruct (nonempty (create_statement st)); [|done].
    destruct (endswith (strip raw) (lit ";")); [|done].
    unfold complete_create.
    destruct (get_table_name _) as [m|]; [|done].
    destruct (get_column_names _) as [[|h hs]|e]; try done.
    cbn [fst set_create_statement register_table tables].
    destruct (decide (m = n)) as [->|Hne].
    - rewrite lookup_insert_eq. by eexists.
    - by rewrite lookup_insert_ne. }
  destruct (continue_create st (strip raw)) as [st1 [[]|e]]; [|done].
  destruct (process_insert_frame (handle_insert st1 (strip raw)) (strip raw))
    as (-> & _ & _).
  by destruct (handle_insert_frame st1 (strip raw)) as (-> & _ & _).
Qed.

(** X16.  A run never takes anything back: a table of the registry stays
    registered, and a sink stays open behind its handle, with its path and
    with the records it had, in their order, before any new ones. *)
Theorem run_keeps_tables_and_records lines : forall st,
  sinks_extend (files st) (files (run st lines).1)
  /\ (forall n, is_Some (tables st !! n) ->
        is_Some (tables (run st lines).1 !! n)).
Proof.
  induction lines as [|raw lines IH]; intros st.
  - split; [apply sinks_extend_refl|done].
  - cbn [run]. pose proof (sinks_extend_step st raw) as Hs.
    pose proof (tables_kept_step st raw) as Ht.
    destruct (step st raw) as [st1 [[]|e]]; [|done].
    destruct (IH st1) as [IHs IHt]. split.
    + by eapply sinks_extend_trans.
    + intros n Hn. by apply IHt, Ht.
Qed.

Lemma run_keeps_tables_and_records_witness :
  is_Some
    (tables
       (run (run initial [lit "CREATE TABLE t ("; lit "a INT"; lit ");"]).1
          [lit "INSERT INTO t VALUES (1),(2);"; lit "CREATE TABLE u (";
           lit "b INT);"]).1
     !! lit "t").
Proof.
  apply (proj2 (run_keeps_tables_and_records
                  [lit "INSERT INTO t VALUES (1),(2);"; lit "CREATE TABLE u (";
                   lit "b INT);"]
                  (run initial [lit "CREATE TABLE t ("; lit "a INT";
                                lit ");"]).1)).
  eexists. vm_compute. reflexivity.
Defined.

(** ** The registry and its sinks *)









(** X19.  A one-line INSERT statement for a registered table that has no
    [ VALUES ] in upper case between two spaces is dropped: the step makes
    the table the current one, writes nothing and raises nothing. *)
Theorem step_insert_without_values st raw n td :
  create_statement st = [] -> is_insert raw = true ->
  get_table_name (strip raw) = Some n -> tables st !! n = Some td ->
  contains (strip raw) (lit ";") = true ->
  contains (strip raw) (lit " VALUES ") = false ->
  step st raw = (mkState (tables st) (Some td) [] [] (files st), Ok tt).
Proof.
  intros Hb Hins Hn Hlook Hsemi Hval. unfold step.
  rewrite (is_insert_not_skipped raw Hins).
  rewrite is_create_table_strip, (is_insert_not_create raw Hins).
  unfold continue_create. rewrite Hb. cbn [nonempty].
  unfold handle_insert. rewrite is_insert_strip, Hins, Hn, Hlook, Hb.
  unfold process_insert. cbn [current_insert current_table].
  assert (nonempty (strip raw) = true) as ->.
  { unfold is_insert in Hins.
    by apply startswith_upper_head in Hins as (c & u & -> & _). }
  rewrite Hsemi, (get_values_absent _ Hval). done.
Qed.

Lemma step_insert_without_values_witness :
  step (register_table initial (lit "t") [lit "a"])
    (lit "INSERT INTO t values (1);")
  = (mkState (tables (register_table initial (lit "t") [lit "a"]))
       (Some (mkTableData (lit "t") [lit "a"] 0)) [] []
       (files (register_table initial (lit "t") [lit "a"])), Ok tt).
Proof.
  apply (step_insert_without_values (register_table initial (lit "t") [lit "a"])
           (lit "INSERT INTO t values (1);") (lit "t")).
  - reflexivity.
  - reflexivity.
  - reflexivity.
  - vm_compute. reflexivity.
  - reflexivity.
  - reflexivity.
Defined.

(** ** An INSERT statement on one line *)

Lemma strip_between c (s : list ascii) d :
  isspace c = false -> isspace d = false ->
  strip (c :: s ++ [d]) = c :: s ++ [d].
Proof.
  intros Hc Hd. rewrite strip_nonspace_head by done. f_equal.
  unfold rstrip_by. rewrite rev_unit. cbn [drop_while]. rewrite Hd.
  cbn [rev]. by rewrite rev_involutive.
Qed.

Lemma insert_line_shape n t ts :
  exists s,
    lit "INSERT INTO " ++ n ++ lit " VALUES " ++ values_text (t :: ts)
    = "I"%char :: s ++ [";"%char].
Proof.
  destruct (values_text_bracketed t ts) as (v & ->).
  exists (lit "NSERT INTO " ++ n ++ lit " VALUES " ++ "("%char :: v).
  cbn [lit list_ascii_of_string app].
  by repeat (rewrite <- app_assoc; cbn [app]).
Qed.

(** X20.  A one-line INSERT statement for a registered table, made of
    [INSERT INTO], the name, [VALUES] and a clause of tuples of unquoted
    scalars, appends one row for each tuple to the sink of that table and
    changes nothing else but the current table; no CREATE statement is
    pending, and the name is not such that [ VALUES ] occurs before the
    clause. *)
Theorem step_insert_line st n td s t ts :
  create_statement st = [] ->
  n <> [] -> forallb is_name_char n = true ->
  contains (lit "INSERT INTO " ++ n ++ lit " VALUES") (lit " VALUES ") = false ->
  tables st !! n = Some td -> files st !! output_file td = Some s ->
  Forall (fun t => t <> [] /\ Forall (fun f => scalar f = true) t) (t :: ts) ->
  step st (lit "INSERT INTO " ++ n ++ lit " VALUES " ++ values_text (t :: ts))
  = (mkState (tables st) (Some td) [] []
       (<[output_file td :=
            mkSink (path s) (records s ++ map decode_tuple (t :: ts))]>
          (files st)), Ok tt).
Proof.
  intros Hb Hne Hname Hfirst Hlook Hsink Hall.
  set (line := lit "INSERT INTO " ++ n ++ lit " VALUES " ++ values_text (t :: ts)).
  assert (strip line = line) as Hstrip.
  { subst line. destruct (insert_line_shape n t ts) as (u & ->).
    by apply strip_between. }
  assert (is_insert line = true) as Hins.
  { unfold is_insert. rewrite Hstrip. subst line. unfold upper.
    rewrite map_app. apply startswith_take.
    change (map upper_char (lit "INSERT INTO "))
      with (lit "INSERT INTO" ++ lit " ").
    by rewrite <- app_assoc, take_app_length. }
  assert (get_table_name line = Some n) as Hn.
  { subst line. by apply get_table_name_insert_line. }
  assert (contains line (lit ";") = true) as Hsemi.
  { subst line. destruct (insert_line_shape n t ts) as (u & ->).
    apply (contains_single_In _ ";"%char). right. apply in_or_app.
    right. by left. }
  assert (get_values line = Some (values_text (t :: ts))) as Hval.
  { subst line.
    replace (lit "INSERT INTO " ++ n ++ lit " VALUES " ++ values_text (t :: ts))
      with ((lit "INSERT INTO " ++ n) ++ lit " VALUES " ++ values_text (t :: ts))
      by (by rewrite <- app_assoc).
    apply get_values_first. by rewrite <- app_assoc. }
  assert (values_sanity_check (values_text (t :: ts)) = true
          /\ nonempty (values_text (t :: ts)) = true) as [Hsane Hnonempty].
  { unfold values_sanity_check. rewrite strip_values_text.
    by destruct (values_text_bracketed t ts) as (v & ->). }
  unfold step. cbv zeta. rewrite (is_insert_not_skipped line Hins), Hstrip.
  rewrite (is_insert_not_create line Hins).
  unfold continue_create. rewrite Hb. cbn [nonempty].
  unfold handle_insert. rewrite Hins, Hn, Hlook, Hb.
  unfold process_insert. cbn [current_insert current_table files].
  rewrite Hsemi, Hval, Hnonempty, Hsane.
  assert (nonempty line = true) as -> by done.
  cbn [andb]. unfold write_values. rewrite Hsink.
  assert (parse_values (values_text (t :: ts)) (records s)
          = (records s ++ map decode_tuple (t :: ts), Ok [])) as ->.
  { unfold parse_values.
    rewrite strip_values_text, reader_clause by done.
    cbn [parse_rows].
    change (parse_columns (clause_fields t ts) [] (records s))
      with (parse_columns (clause_fields t ts) (pending None) (records s)).
    rewrite (parse_columns_clause ts t None (records s)) by done.
    cbn [unwritten flush_row length Nat.eqb negb parse_rows].
    by rewrite app_nil_r. }
  done.
Qed.

Lemma step_insert_line_witness :
  step (register_table initial (lit "t") [lit "a"; lit "b"])
    (lit "INSERT INTO " ++ lit "t" ++ lit " VALUES "
       ++ values_text [[lit "1"; lit "x"]; [lit "2"; lit "y"]])
  = (mkState (tables (register_table initial (lit "t") [lit "a"; lit "b"]))
       (Some (mkTableData (lit "t") [lit "a"; lit "b"] 0)) [] []
       (<[0 := mkSink (lit "csv_output/t.csv")
                ([[lit "a"; lit "b"]]
                   ++ map decode_tuple [[lit "1"; lit "x"]; [lit "2"; lit "y"]])]>
          (files (register_table initial (lit "t") [lit "a"; lit "b"]))),
     Ok tt).
Proof.
  apply (step_insert_line (register_table initial (lit "t") [lit "a"; lit "b"])
           (lit "t") (mkTableData (lit "t") [lit "a"; lit "b"] 0)
           (mkSink (lit "csv_output/t.csv") [[lit "a"; lit "b"]])
           [lit "1"; lit "x"] [[lit "2"; lit "y"]]).
  - reflexivity.
  - discriminate.
  - reflexivity.
  - reflexivity.
  - vm_compute. reflexivity.
  - reflexivity.
  - repeat constructor; discriminate.
Defined.
